(** * Batch submission and result reconciliation

    A shallow embedding of the two scripts that drive the document
    segmentation pipeline:

    - [batch_itemizer.py]: [SegmentationBatchManager], which packs source
      files into batches under a token budget, submits them and tracks the
      batches that are still in flight;
    - [retrieve_batches.py]: [BatchResultManager], which downloads the
      output of completed batches and merges it into one result file.

    Python dictionaries that are iterated (the [active_batches] map) are
    insertion-ordered association lists; dictionaries that are only looked up
    (the merged results) are [gmap]s; the set of processed batch ids is a
    [gset].  The OpenAI client, the file system and the tokenizer are
    oracles passed to each call; a raised exception is [None]. *)

From Stdlib Require Import ZArith Lia.
From stdpp Require Import base numbers list strings gmap sets relations pretty.

Local Open Scope Z_scope.

(** ** Insertion-ordered dictionaries with string keys *)

Module odict.
Section defs.
Context {V : Type}.

(** [d.get(k)] *)
Fixpoint get (d : list (string * V)) (k : string) : option V :=
  match d with
  | [] => None
  | (k', v) :: d' => if decide (k' = k) then Some v else get d' k
  end.

(** [d[k] = v]: an existing key keeps its position, a new one goes last. *)
Fixpoint set (d : list (string * V)) (k : string) (v : V) : list (string * V) :=
  match d with
  | [] => [(k, v)]
  | (k', v') :: d' =>
      if decide (k' = k) then (k, v) :: d' else (k', v') :: set d' k v
  end.

(** [del d[k]] *)
Definition del (d : list (string * V)) (k : string) : list (string * V) :=
  filter (λ kv, kv.1 ≠ k) d.

(** [list(d.keys())] *)
Definition keys (d : list (string * V)) : list string := d.*1.

(** Python keeps the keys of a dictionary distinct. *)
Definition ok (d : list (string * V)) : Prop := NoDup (keys d).
End defs.
End odict.

(** ** The external collaborators *)

(** One element of [files_for_batch]; [filename] becomes the [custom_id] of
    the request written to the batch input file. *)
Record file_data := mkFileData {
  filename : string;
  content : string
}.

(** A batch object of the service, as far as the scripts read it. *)
Record Batch := mkBatch {
  id : string;
  status : string;
  output_file_id : option string
}.

(** The OpenAI client.  Each call is an oracle; [None] is a raised
    exception.  [retrieve] answers with the status and the output file of the
    batch that was asked for, [upload] with the id of the uploaded file,
    [create] with the id and status of the new batch, [download] with the
    lines of [response.text.strip().split('\n')]. *)
Record Client := mkClient {
  retrieve : string → option (string * option string);
  upload : list file_data → option string;
  create : string → option (string * string);
  download : string → option (list string)
}.

(** [client.batches.retrieve(batch_id)] *)
Definition batches_retrieve (c : Client) (batch_id : string) : option Batch :=
  match retrieve c batch_id with
  | Some (st, out) => Some {| id := batch_id; status := st; output_file_id := out |}
  | None => None
  end.

(** What a run of the submission script finds around it: the files, the
    tokenizer, the clock and the two string functions of the Python library
    it uses.  [system_prompt_tokens] is [len(encoder.encode(SYSTEM_PROMPT))]. *)
Record Env := mkEnv {
  open_readlines : string → option (list string);
  encode : string → option (list Z);
  system_prompt_tokens : nat;
  basename : string → string;
  strip : string → string;
  time : Z
}.

(** ** The submission script: [batch_itemizer.py] *)

Module Itemizer.

Definition QUEUE_LIMIT_TOKENS : Z := 900000000.
Definition MAX_FILES_PER_BATCH : Z := 5000.

(** One value of the [active_batches] map; [rstatus] is its [status] key.
    The records are written by [submit_new_batch] only, with all five
    keys. *)
Record BatchRecord := mkBatchRecord {
  rstatus : string;
  submitted_at : Z;
  input_file_id : string;
  total_tokens : Z;
  file_count : Z
}.

(** [self.state], which is also the JSON document of [STATE_FILE]. *)
Record State := mkState {
  last_file_submitted_index : Z;
  active_batches : list (string * BatchRecord);
  source_files : list string;
  all_files_submitted : bool
}.

(** The manager: the state in memory and the last state written to
    [STATE_FILE] by [_save_state]. *)
Record Manager := mkManager {
  state : State;
  STATE_FILE : State
}.

Definition _save_state (m : Manager) : Manager :=
  {| state := state m; STATE_FILE := state m |}.

Definition set_active_batches (st : State) (ab : list (string * BatchRecord)) : State :=
  {| last_file_submitted_index := last_file_submitted_index st;
     active_batches := ab;
     source_files := source_files st;
     all_files_submitted := all_files_submitted st |}.

Definition set_status (r : BatchRecord) (s : string) : BatchRecord :=
  {| rstatus := s;
     submitted_at := submitted_at r;
     input_file_id := input_file_id r;
     total_tokens := total_tokens r;
     file_count := file_count r |}.

(** *** [get_current_queue_size] *)

Definition ACTIVE : list string := ["validating"; "in_progress"; "finalizing"].
Definition TERMINAL : list string := ["completed"; "failed"; "cancelled"; "expired"].

(** [status in [...]] *)
Definition status_in (s : string) (l : list string) : bool := bool_decide (s ∈ l).

(** The body of the [for batch_id in list(...keys())] loop.  The snapshot
    of the keys is taken before the loop and the loop deletes only the key
    it is visiting, so the key is present on each visit; the dictionary is
    returned as it is for an absent key. *)
Definition refresh_step (c : Client)
    (acc : Z * list (string * BatchRecord)) (batch_id : string)
    : Z * list (string * BatchRecord) :=
  let '(total_tokens_acc, ab) := acc in
  match odict.get ab batch_id with
  | None => acc
  | Some r =>
      match batches_retrieve c batch_id with
      | Some batch_obj =>
          let st := status batch_obj in
          let ab1 := odict.set ab batch_id (set_status r st) in
          if status_in st ACTIVE then (total_tokens_acc + total_tokens r, ab1)
          else if status_in st TERMINAL then (total_tokens_acc, odict.del ab1 batch_id)
          else (total_tokens_acc, ab1)
      | None => (total_tokens_acc + total_tokens r, ab)
      end
  end.

Definition get_current_queue_size (c : Client) (m : Manager) : Manager * Z :=
  match active_batches (state m) with
  | [] => (m, 0)
  | _ :: _ =>
      let '(total, ab) :=
        foldl (refresh_step c) (0, active_batches (state m))
              (odict.keys (active_batches (state m))) in
      (_save_state {| state := set_active_batches (state m) ab;
                      STATE_FILE := STATE_FILE m |}, total)
  end.

(** *** [submit_new_batch] *)

(** [f"<line {idx+1}> {line.strip()}\n"] *)
Definition prefixed_line (e : Env) (idx : nat) (line : string) : string :=
  "<line " +:+ pretty (S idx) +:+ "> " +:+ strip e line +:+ String (Ascii.ascii_of_nat 10) EmptyString.

Definition prefixed_content (e : Env) (lines : list string) : string :=
  String.concat "" (imap (prefixed_line e) lines).

(** The part of the [try] block before the capacity test: read the file,
    prefix its lines and count the tokens of the request.  [None] when the
    file cannot be read or the content cannot be encoded. *)
Definition prepare (e : Env) (filepath : string) : option (file_data * Z) :=
  match open_readlines e filepath with
  | None => None
  | Some lines =>
      let prefixed := prefixed_content e lines in
      match encode e prefixed with
      | None => None
      | Some toks =>
          Some ({| filename := basename e filepath; content := prefixed |},
                Z.of_nat (system_prompt_tokens e) + Z.of_nat (length toks))
      end
  end.

(** What happened to the file at index [i] in one pass of the loop. *)
Inductive scan_event :=
  | Packed (i : Z) (fd : file_data) (request_tokens : Z)
  | Skipped (i : Z)
  | Rejected (i : Z).

Definition event_index (ev : scan_event) : Z :=
  match ev with Packed i _ _ | Skipped i | Rejected i => i end.

(** The local variables of the loop, and the events so far. *)
Record scan := mkScan {
  files_for_batch : list file_data;
  batch_total_tokens : Z;
  last_file_index_in_batch : Z;
  events : list scan_event
}.

(** [for i in range(start_index, len(source_files))], on the files from
    [start_index] on; [i] is the index of the first of them.  The boolean
    tells whether the loop ran to its [else] branch. *)
Fixpoint scan_files (e : Env) (available_token_capacity : Z)
    (files : list string) (i : Z) (s : scan) : scan * bool :=
  match files with
  | [] => (s, true)
  | filepath :: rest =>
      match prepare e filepath with
      | Some (fd, request_tokens) =>
          if bool_decide (batch_total_tokens s + request_tokens > available_token_capacity)
             || bool_decide (Z.of_nat (length (files_for_batch s)) >= MAX_FILES_PER_BATCH)
          then ({| files_for_batch := files_for_batch s;
                   batch_total_tokens := batch_total_tokens s;
                   last_file_index_in_batch := last_file_index_in_batch s;
                   events := events s ++ [Rejected i] |}, false)
          else scan_files e available_token_capacity rest (i + 1)
                 {| files_for_batch := files_for_batch s ++ [fd];
                    batch_total_tokens := batch_total_tokens s + request_tokens;
                    last_file_index_in_batch := i;
                    events := events s ++ [Packed i fd request_tokens] |}
      | None =>
          scan_files e available_token_capacity rest (i + 1)
            {| files_for_batch := files_for_batch s;
               batch_total_tokens := batch_total_tokens s;
               last_file_index_in_batch := i;
               events := events s ++ [Skipped i] |}
      end
  end.

(** Lines 203 to 235: the local variables before the loop, the loop, and
    the two assignments to the state after it. *)
Definition build (e : Env) (available_token_capacity : Z) (st : State) : State * scan :=
  let start_index := last_file_submitted_index st + 1 in
  let '(s, exhausted) :=
    scan_files e available_token_capacity
      (drop (Z.to_nat start_index) (source_files st)) start_index
      {| files_for_batch := [];
         batch_total_tokens := 0;
         last_file_index_in_batch := last_file_submitted_index st;
         events := [] |} in
  ({| last_file_submitted_index := last_file_index_in_batch s;
      active_batches := active_batches st;
      source_files := source_files st;
      all_files_submitted := if exhausted then true else all_files_submitted st |}, s).

(** The upload and the creation of the batch job, both inside the [try]. *)
Definition submit (c : Client) (files : list file_data) : option (string * string * string) :=
  match upload c files with
  | None => None
  | Some uploaded_file_id =>
      match create c uploaded_file_id with
      | None => None
      | Some (batch_id, st) => Some (uploaded_file_id, batch_id, st)
      end
  end.

(** The second component is [None] when the call returns at once because
    everything was submitted already, and the result of the loop otherwise. *)
Definition submit_new_batch (e : Env) (c : Client) (available_token_capacity : Z)
    (m : Manager) : Manager * option scan :=
  if all_files_submitted (state m) then (m, None)
  else
    let '(st, s) := build e available_token_capacity (state m) in
    let m1 := {| state := st; STATE_FILE := STATE_FILE m |} in
    match files_for_batch s with
    | [] => (_save_state m1, Some s)
    | _ :: _ =>
        match submit c (files_for_batch s) with
        | Some (uploaded_file_id, batch_id, bst) =>
            let r := {| rstatus := bst;
                        submitted_at := time e;
                        input_file_id := uploaded_file_id;
                        total_tokens := batch_total_tokens s;
                        file_count := Z.of_nat (length (files_for_batch s)) |} in
            (_save_state
               {| state := set_active_batches st (odict.set (active_batches st) batch_id r);
                  STATE_FILE := STATE_FILE m |}, Some s)
        | None => (m1, Some s)
        end
    end.

(** One turn of the [while True] loop of [run]; the boolean is the [break]. *)
Definition run_iteration (e : Env) (c : Client) (m : Manager) : Manager * bool :=
  let '(m1, current_queue_size) := get_current_queue_size c m in
  let available_capacity := QUEUE_LIMIT_TOKENS - current_queue_size in
  let m2 :=
    if bool_decide (available_capacity > 0)
    then (submit_new_batch e c available_capacity m1).1
    else m1 in
  (m2, all_files_submitted (state m2)
       && bool_decide (active_batches (state m2) = [])).

(** [_initialize_source_files], after the glob and the filtering gave
    [files_to_process]: the cursor and the flag are reset and the state is
    saved. *)
Definition _initialize_source_files (files_to_process : list string) (loaded : State) : Manager :=
  _save_state
    {| state := {| last_file_submitted_index := -1;
                   active_batches := active_batches loaded;
                   source_files := files_to_process;
                   all_files_submitted := false |};
       STATE_FILE := loaded |}.

End Itemizer.

(** ** The retrieval script: [retrieve_batches.py] *)

Module Retriever.

(** The calls to the service, and the merges, that one run performs. *)
Inductive event :=
  | Retrieve (batch_id : string)
  | Download (batch_id : string) (file_id : string)
  | Update (batch_id : string).

Definition event_batch (ev : event) : string :=
  match ev with Retrieve b | Download b _ | Update b => b end.

Section payload.
Context {payload : Type}.

(** What the body of [for line in result_lines] does with one line: it
    stores an entry, or drops the line (a malformed line, or one of the
    three exceptions the inner [try] catches), or raises an exception that
    only the outer [try] catches. *)
Inductive line_result :=
  | Parsed (custom_id : string) (final_data : payload)
  | Dropped
  | Crashed.

(** [MERGED_OUTPUT_FILE] *)
Record ResultFile := mkResultFile {
  results : gmap string payload;
  last_updated_timestamp : string;
  total_files_processed : nat
}.

(** The two files the script owns.  A run is one process: it loads the
    processed ids when it starts and writes them back after every batch,
    so the set in memory is the set of the file at every point where
    this model looks at it. *)
Record Files := mkFiles {
  processed_batch_ids : gset string;
  MERGED_OUTPUT_FILE : option ResultFile
}.

Context (parse_line : string → line_result).

(** The loop of [get_new_completed_batches]. *)
Fixpoint check_batches (c : Client) (processed : gset string)
    (batch_ids_to_check : list string) : list Batch * list event :=
  match batch_ids_to_check with
  | [] => ([], [])
  | batch_id :: rest =>
      let '(completed_batches, evs) := check_batches c processed rest in
      if bool_decide (batch_id ∈ processed) then (completed_batches, evs)
      else
        match batches_retrieve c batch_id with
        | Some batch =>
            if bool_decide (status batch = "completed")
            then (batch :: completed_batches, Retrieve batch_id :: evs)
            else (completed_batches, Retrieve batch_id :: evs)
        | None => (completed_batches, Retrieve batch_id :: evs)
        end
  end.

(** [submission_state] is the content of the state file of the submission
    script, [None] when it is missing or cannot be parsed; the function
    returns the empty list then, as it does when the map has no key. *)
Definition batch_ids_to_check (submission_state : option Itemizer.State) : list string :=
  match submission_state with
  | None => []
  | Some st => odict.keys (Itemizer.active_batches st)
  end.

Definition get_new_completed_batches (c : Client) (processed : gset string)
    (submission_state : option Itemizer.State) : list Batch * list event :=
  check_batches c processed (batch_ids_to_check submission_state).

(** The loop over the lines; [None] when a line raised past the inner
    handler. *)
Fixpoint parse_lines (result_lines : list string) (res : gmap string payload)
    : option (gmap string payload) :=
  match result_lines with
  | [] => Some res
  | line :: rest =>
      match parse_line line with
      | Parsed custom_id final_data => parse_lines rest (<[custom_id := final_data]> res)
      | Dropped => parse_lines rest res
      | Crashed => None
      end
  end.

Definition process_batch_result (c : Client) (batch : Batch)
    : gmap string payload * list event :=
  match output_file_id batch with
  | None => (∅, [])
  | Some file_id =>
      if bool_decide (file_id = "") then (∅, [])
      else
        match download c file_id with
        | None => (∅, [Download (id batch) file_id])
        | Some result_lines =>
            (default ∅ (parse_lines result_lines ∅), [Download (id batch) file_id])
        end
  end.

(** The body of [for batch in new_batches]; the state is saved at the end
    of each turn. *)
Definition run_step (c : Client)
    (acc : gmap string payload * gset string * list event) (batch : Batch)
    : gmap string payload * gset string * list event :=
  let '(all_new_results, processed, evs) := acc in
  let '(batch_results, evs1) := process_batch_result c batch in
  (batch_results ∪ all_new_results, {[id batch]} ∪ processed,
   evs ++ evs1 ++ [Update (id batch)]).

(** [timestamp] is the formatted [time.gmtime()]. *)
Definition run (c : Client) (timestamp : string)
    (submission_state : option Itemizer.State) (f : Files) : Files * list event :=
  let '(new_batches, evs) :=
    get_new_completed_batches c (processed_batch_ids f) submission_state in
  match new_batches with
  | [] => (f, evs)
  | _ :: _ =>
      let '(all_new_results, processed, evs1) :=
        foldl (run_step c) (∅, processed_batch_ids f, evs) new_batches in
      if bool_decide (all_new_results = ∅)
      then ({| processed_batch_ids := processed;
               MERGED_OUTPUT_FILE := MERGED_OUTPUT_FILE f |}, evs1)
      else
        let final_results :=
          match MERGED_OUTPUT_FILE f with
          | Some old => results old
          | None => ∅
          end in
        let merged := all_new_results ∪ final_results in
        ({| processed_batch_ids := processed;
            MERGED_OUTPUT_FILE :=
              Some {| results := merged;
                      last_updated_timestamp := timestamp;
                      total_files_processed := size merged |} |}, evs1)
  end.
End payload.

Arguments line_result : clear implicits.
Arguments ResultFile : clear implicits.
Arguments Files : clear implicits.

End Retriever.

(** ** Sequences of calls of the submission script *)

Module Calls.
Import Itemizer.

(** The cursor is -1 or an index of the catalog in every state the script
    reaches: [_initialize_source_files] sets it to -1 and [build] moves it
    to an index it visited.  [build] is the loop of the source for such
    cursors. *)
Definition valid_cursor (st : State) : Prop := -1 <= last_file_submitted_index st.

(** The cost of one request of a batch: the tokens of the system prompt
    and the tokens of its content. *)
Definition request_cost (e : Env) (fd : file_data) : Z :=
  Z.of_nat (system_prompt_tokens e)
  + Z.of_nat (length (default [] (encode e (content fd)))).

Definition batch_cost (e : Env) (files : list file_data) : Z :=
  foldr (λ fd acc, request_cost e fd + acc) 0 files.

(** The events of a pass that consumed an index. *)
Definition consumed (ev : scan_event) : bool :=
  match ev with Rejected _ => false | _ => true end.

Definition is_skipped (ev : scan_event) : bool :=
  match ev with Skipped _ => true | _ => false end.

Definition packed_index (ev : scan_event) : option Z :=
  match ev with Packed i _ _ => Some i | _ => None end.

(** The index of the last file that was put into the batch. *)
Definition last_packed_index (evs : list scan_event) : option Z :=
  last (omap packed_index evs).

Definition packed_file (ev : scan_event) : option file_data :=
  match ev with Packed _ fd _ => Some fd | _ => None end.

(** The events a pass over [files] can leave, where the first of the files
    has index [i]: a file that was prepared is packed or ends the pass, a
    file that could not be prepared is skipped. *)
Inductive pass (e : Env) : list string → Z → list scan_event → Prop :=
  | pass_end i : pass e [] i []
  | pass_packed filepath rest i fd request_tokens evs :
      prepare e filepath = Some (fd, request_tokens) →
      pass e rest (i + 1) evs →
      pass e (filepath :: rest) i (Packed i fd request_tokens :: evs)
  | pass_skipped filepath rest i evs :
      prepare e filepath = None →
      pass e rest (i + 1) evs →
      pass e (filepath :: rest) i (Skipped i :: evs)
  | pass_rejected filepath rest i :
      is_Some (prepare e filepath) →
      pass e (filepath :: rest) i [Rejected i].

(** What one tracked record adds to the total of a refresh: its tokens
    when the service reports an active status or the query raises, and
    nothing otherwise. *)
Definition counted (c : Client) (entry : string * BatchRecord) : Z :=
  match batches_retrieve c entry.1 with
  | Some batch_obj => if status_in (status batch_obj) ACTIVE then total_tokens entry.2 else 0
  | None => total_tokens entry.2
  end.

Definition sum_Z (l : list Z) : Z := foldr Z.add 0 l.

(** What a refresh leaves of one tracked record. *)
Definition refreshed (c : Client) (entry : string * BatchRecord) : list (string * BatchRecord) :=
  match batches_retrieve c entry.1 with
  | Some batch_obj =>
      if status_in (status batch_obj) ACTIVE
      then [(entry.1, set_status entry.2 (status batch_obj))]
      else if status_in (status batch_obj) TERMINAL then []
      else [(entry.1, set_status entry.2 (status batch_obj))]
  | None => [entry]
  end.

(** The two calls the loop of [run] makes, in any order and number. *)
Inductive action :=
  | Refresh (c : Client)
  | Submit (e : Env) (c : Client) (available_token_capacity : Z).

Definition perform (a : action) (m : Manager) : Manager * option scan :=
  match a with
  | Refresh c => ((get_current_queue_size c m).1, None)
  | Submit e c cap => submit_new_batch e c cap m
  end.

(** The manager after the actions, and the passes they made. *)
Fixpoint perform_all (acts : list action) (m : Manager) : Manager * list scan :=
  match acts with
  | [] => (m, [])
  | a :: rest =>
      let '(m1, o) := perform a m in
      let '(m2, passes) := perform_all rest m1 in
      (m2, match o with Some s => s :: passes | None => passes end)
  end.

End Calls.

(** ** The two scripts side by side *)

Module Pipeline.
Import Itemizer.

Section system.
Context {payload : Type} (parse_line : string → Retriever.line_result payload).

(** The entry of the merged results for one identity, if any. *)
Definition stored (f : Retriever.Files payload) (custom_id : string) : option payload :=
  match Retriever.MERGED_OUTPUT_FILE f with
  | Some rf => Retriever.results rf !! custom_id
  | None => None
  end.

(** [all_new_results] after the loop over [new_batches]. *)
Definition all_new_results (c : Client) (new_batches : list Batch)
    : gmap string payload :=
  foldl (λ acc batch, (Retriever.process_batch_result parse_line c batch).1 ∪ acc)
        ∅ new_batches.

(** The submission script, the files of the retrieval script, and the
    calls and merges the retrieval script has made so far. *)
Record System := mkSystem {
  submitter : Manager;
  retriever : Retriever.Files payload;
  log : list Retriever.event
}.

(** What can happen next, seen from one batch handle [h]: a refresh or a
    call of the builder in the submission loop, a restart of the
    submission script, or a run of the retrieval script on the state file
    as it is.  The service answers as it likes, except that it does not
    give the handle [h] to a new batch. *)
Inductive sys_step (h : string) : System → System → Prop :=
  | step_refresh c s :
      sys_step h s
        {| submitter := (get_current_queue_size c (submitter s)).1;
           retriever := retriever s;
           log := log s |}
  | step_submit e c cap s :
      (∀ file_id st, create c file_id ≠ Some (h, st)) →
      sys_step h s
        {| submitter := (submit_new_batch e c cap (submitter s)).1;
           retriever := retriever s;
           log := log s |}
  | step_restart files_to_process s :
      sys_step h s
        {| submitter := _initialize_source_files files_to_process
                          (STATE_FILE (submitter s));
           retriever := retriever s;
           log := log s |}
  | step_reconcile c timestamp s :
      sys_step h s
        {| submitter := submitter s;
           retriever :=
             (Retriever.run parse_line c timestamp
                (Some (STATE_FILE (submitter s))) (retriever s)).1;
           log := log s ++
             (Retriever.run parse_line c timestamp
                (Some (STATE_FILE (submitter s))) (retriever s)).2 |}.
(** The handle [h] is gone from the map, in memory and in the state
    file, is not marked as processed, and no call or merge of the
    retrieval script was about it. *)
Definition forgotten (h : string) (s : System) : Prop :=
  (h ∉ odict.keys (active_batches (state (submitter s))))
  ∧ (h ∉ odict.keys (active_batches (STATE_FILE (submitter s))))
  ∧ (h ∉ Retriever.processed_batch_ids (retriever s))
  ∧ ∀ ev, ev ∈ log s → Retriever.event_batch ev ≠ h.
End system.

Arguments System : clear implicits.

End Pipeline.

(** ** A small catalog, a small service *)

Module Examples.
Import Itemizer.

(** Three files; the second cannot be read.  The tokenizer makes one token
    of every character. *)
Definition catalog : list string := ["docs/a.txt"; "docs/b.txt"; "docs/c.txt"].

Definition env : Env :=
  {| open_readlines := λ filepath,
       if decide (filepath = "docs/b.txt") then None
       else Some ["Article 1"; filepath];
     encode := λ text, Some (replicate (String.length text) 0);
     system_prompt_tokens := 5;
     basename := λ filepath, String.substring 5 (String.length filepath - 5) filepath;
     strip := λ line, line;
     time := 1700000000 |}.

(** A service that is down: every call raises. *)
Definition down : Client :=
  {| retrieve := λ _, None;
     upload := λ _, None;
     create := λ _, None;
     download := λ _, None |}.

(** A service that accepts every batch under the handle [batch_9]. *)
Definition accepting : Client :=
  {| retrieve := λ _, None;
     upload := λ _, Some "file_9";
     create := λ _, Some ("batch_9", "validating");
     download := λ _, None |}.

(** A service that knows three batches: the first is completed, the query
    for the second raises, the third is running.  The output of the first
    cannot be downloaded. *)
Definition polling : Client :=
  {| retrieve := λ batch_id,
       if decide (batch_id = "batch_1") then Some ("completed", Some "out_1")
       else if decide (batch_id = "batch_2") then None
       else Some ("in_progress", None);
     upload := λ _, None;
     create := λ _, None;
     download := λ _, None |}.

(** The same service once the download works again. *)
Definition recovered : Client :=
  {| retrieve := retrieve polling;
     upload := upload polling;
     create := create polling;
     download := λ file_id,
       if decide (file_id = "out_1") then Some ["a.txt seg_a"; "c.txt seg_c"]
       else None |}.

(** A service on which two batches are completed; both carry a result for
    [a.txt]. *)
Definition finished : Client :=
  {| retrieve := λ batch_id, Some ("completed", Some ("out_" +:+ batch_id));
     upload := λ _, None;
     create := λ _, None;
     download := λ file_id,
       if decide (file_id = "out_batch_1") then Some ["a.txt first"]
       else if decide (file_id = "out_batch_2") then Some ["a.txt second"; "broken"]
       else None |}.

(** A result line is an identity, a space and a payload; a line without a
    space is dropped. *)
Fixpoint split_at_space (line : string) : option (string * string) :=
  match line with
  | EmptyString => None
  | String a rest =>
      if decide (a = Ascii.ascii_of_nat 32) then Some (EmptyString, rest)
      else match split_at_space rest with
           | Some (custom_id, final_data) => Some (String a custom_id, final_data)
           | None => None
           end
  end.

Definition parse_line (line : string) : Retriever.line_result string :=
  match split_at_space line with
  | Some (custom_id, final_data) => Retriever.Parsed custom_id final_data
  | None => Retriever.Dropped
  end.

Definition fresh : State :=
  {| last_file_submitted_index := -1;
     active_batches := [];
     source_files := catalog;
     all_files_submitted := false |}.

Definition manager : Manager := {| state := fresh; STATE_FILE := fresh |}.

(** A catalog whose first file cannot be read. *)
Definition unreadable_first : Manager :=
  let st := {| last_file_submitted_index := -1;
               active_batches := [];
               source_files := ["docs/b.txt"; "docs/a.txt"];
               all_files_submitted := false |} in
  {| state := st; STATE_FILE := st |}.

Definition record (tokens : Z) : BatchRecord :=
  {| rstatus := "validating";
     submitted_at := 1700000000;
     input_file_id := "file_0";
     total_tokens := tokens;
     file_count := 1 |}.

(** Everything is submitted and three batches are tracked. *)
Definition tracking : Manager :=
  let st := {| last_file_submitted_index := 2;
               active_batches :=
                 [("batch_1", record 10); ("batch_2", record 20); ("batch_3", record 40)];
               source_files := catalog;
               all_files_submitted := true |} in
  {| state := st; STATE_FILE := st |}.

(** The retrieval script before its first run. *)
Definition nothing : Retriever.Files string :=
  {| Retriever.processed_batch_ids := ∅; Retriever.MERGED_OUTPUT_FILE := None |}.

(** The submission loop refreshed, then the retrieval script ran once. *)
Definition refreshed_then_run : Pipeline.System string :=
  let s := {| Pipeline.submitter := (get_current_queue_size polling tracking).1;
              Pipeline.retriever := nothing;
              Pipeline.log := [] |} in
  {| Pipeline.submitter := Pipeline.submitter s;
     Pipeline.retriever :=
       (Retriever.run parse_line recovered "2024-01-01 00:00:00 UTC"
          (Some (STATE_FILE (Pipeline.submitter s))) (Pipeline.retriever s)).1;
     Pipeline.log := Pipeline.log s ++
       (Retriever.run parse_line recovered "2024-01-01 00:00:00 UTC"
          (Some (STATE_FILE (Pipeline.submitter s))) (Pipeline.retriever s)).2 |}.

End Examples.

(** ** The catalog of the submission script *)

Module Catalog.
Import Itemizer.

Definition N_FILES_TO_PROCESS : Z := 0.
Definition TAKE_RANDOM_SAMPLE : bool := false.

(** Strings are the bytes of their UTF-8 text; the suffixes the script
    tests and cuts are ASCII, so bytes and characters agree on them. *)

(** [s.endswith(suffix)] *)
Definition endswith (s suffix : string) : bool :=
  bool_decide (String.length suffix ≤ String.length s)%nat
  && bool_decide (String.substring (String.length s - String.length suffix)
                    (String.length suffix) s = suffix).

(** [s[:-n]] for a positive [n] *)
Definition drop_last (n : nat) (s : string) : string :=
  String.substring 0 (String.length s - n) s.

(** The loop over [result_files]; [basename] is [os.path.basename]. *)
Definition skip_basenames (basename : string → string) (result_files : list string)
    : gset string :=
  list_to_set
    (omap (λ rf, let base := basename rf in
                 if endswith base "_original.txt"
                 then Some (drop_last (String.length "_original.txt") base)
                 else None)
          result_files).

(** [base[:-4] if base.endswith('.txt') else base] *)
Definition name_no_ext (base : string) : string :=
  if endswith base ".txt" then drop_last 4 base else base.

(** The list [_initialize_source_files] stores: [result_files] and
    [all_files] are what the two [glob] calls return, [shuffle] is
    [random.shuffle]. *)
Definition files_to_process (basename : string → string)
    (shuffle : list string → list string)
    (result_files all_files : list string) : list string :=
  let selected :=
    filter (λ f, name_no_ext (basename f) ∉ skip_basenames basename result_files)
           all_files in
  let selected :=
    if TAKE_RANDOM_SAMPLE && bool_decide (1 < length selected)%nat
    then shuffle selected else selected in
  if bool_decide (N_FILES_TO_PROCESS > 0)
  then take (Z.to_nat N_FILES_TO_PROCESS) selected
  else selected.

(** [_load_state]; [file] is the content of [STATE_FILE], if it exists. *)
Definition _load_state (file : option State) : State :=
  match file with
  | Some st => st
  | None => {| last_file_submitted_index := -1;
               active_batches := [];
               source_files := [];
               all_files_submitted := false |}
  end.

(** The state part of [__init__]: load, then scan the source directory. *)
Definition start (basename : string → string) (shuffle : list string → list string)
    (result_files all_files : list string) (file : option State) : Manager :=
  _initialize_source_files
    (files_to_process basename shuffle result_files all_files) (_load_state file).

(** [run]: the loop goes on until its [break]; [world] is what it finds
    at each turn, for as many turns as are looked at.  The boolean tells
    whether the loop has left by then. *)
Fixpoint run (world : list (Env * Client)) (m : Manager) : Manager * bool :=
  match world with
  | [] => (m, false)
  | (e, c) :: rest =>
      let '(m1, stop) := run_iteration e c m in
      if stop then (m1, true) else run rest m1
  end.

(** What one file of the catalog costs, when it can be prepared. *)
Definition file_cost (e : Env) (filepath : string) : option Z :=
  match prepare e filepath with
  | Some (_, request_tokens) => Some request_tokens
  | None => None
  end.

(** The cost of the files that can be prepared. *)
Definition catalog_cost (e : Env) (files : list string) : Z :=
  Calls.sum_Z (omap (file_cost e) files).

(** Every tracked record commits a number of tokens that is not negative. *)
Definition tokens_ok (ab : list (string * BatchRecord)) : Prop :=
  Forall (λ entry, 0 <= total_tokens entry.2) ab.

End Catalog.

(** ** The lines of one output file *)

Module Lines.
Import Retriever.

Section entries.
Context {payload : Type} (parse_line : string → line_result payload).

(** The entry a line stores, if it stores one. *)
Definition entry (line : string) : option (string * payload) :=
  match parse_line line with
  | Parsed custom_id final_data => Some (custom_id, final_data)
  | Dropped | Crashed => None
  end.

Definition crashes (line : string) : bool :=
  match parse_line line with
  | Crashed => true
  | Parsed _ _ | Dropped => false
  end.

(** The payload of the last line that stores an entry for [custom_id]. *)
Definition last_entry (result_lines : list string) (custom_id : string)
    : option payload :=
  last (omap (λ line, match entry line with
                      | Some (k, p) => if decide (k = custom_id) then Some p else None
                      | None => None
                      end) result_lines).
End entries.

End Lines.

(** ** More of the small catalog and the small service *)

Module Scenarios.
Import Itemizer.

(** The files of [Examples.env], behind a system prompt that alone is
    larger than the queue. *)
Definition oversized : Env :=
  {| open_readlines := open_readlines Examples.env;
     encode := encode Examples.env;
     system_prompt_tokens := Z.to_nat 1000000000;
     basename := basename Examples.env;
     strip := strip Examples.env;
     time := time Examples.env |}.

(** A catalog of two files that can both be read. *)
Definition readable : Manager :=
  let st := {| last_file_submitted_index := -1;
               active_batches := [];
               source_files := ["docs/a.txt"; "docs/c.txt"];
               all_files_submitted := false |} in
  {| state := st; STATE_FILE := st |}.

(** A service on which every batch is being cancelled. *)
Definition cancelling : Client :=
  {| retrieve := λ _, Some ("cancelling", None);
     upload := λ _, None;
     create := λ _, None;
     download := λ _, None |}.

(** A service on which every batch is completed without an output file. *)
Definition no_output : Client :=
  {| retrieve := λ _, Some ("completed", None);
     upload := λ _, None;
     create := λ _, None;
     download := λ _, None |}.

(** A service whose output for the first batch has a line that is the JSON
    value [null]. *)
Definition garbled : Client :=
  {| retrieve := retrieve Examples.polling;
     upload := λ _, None;
     create := λ _, None;
     download := λ file_id,
       if decide (file_id = "out_1") then Some ["a.txt seg_a"; "null"; "c.txt seg_c"]
       else None |}.

(** [Examples.parse_line], except that the line [null] raises past the
    inner handler, as [None.get] does. *)
Definition parse_line (line : string) : Retriever.line_result string :=
  if decide (line = "null") then Retriever.Crashed else Examples.parse_line line.

(** The directory listings of a start: one of the three sources has a
    result. *)
Definition result_files : list string := ["segs/b_original.txt"; "segs/notes.md"].
Definition all_files : list string := ["docs/a.txt"; "docs/b.txt"; "docs/c.txt"].
Definition tail_name (filepath : string) : string :=
  String.substring 5 (String.length filepath - 5) filepath.

End Scenarios.

(** ** Properties of the dictionaries *)

Section odict_facts.
Context {V : Type}.
Implicit Types (d pre : list (string * V)) (k : string) (v : V).

Lemma odict_get_app_r pre d k :
  k ∉ odict.keys pre → odict.get (pre ++ d) k = odict.get d k.
Proof.
  induction pre as [|[k' v'] pre IH]; [done|]. intros Hnot. simpl.
  destruct (decide (k' = k)) as [->|Hne].
  - exfalso. apply Hnot. by left.
  - apply IH. intros Hin. apply Hnot. by right.
Qed.

Lemma odict_set_app_r pre d k v v' :
  k ∉ odict.keys pre →
  odict.set (pre ++ (k, v') :: d) k v = pre ++ (k, v) :: d.
Proof.
  induction pre as [|[k1 v1] pre IH]; intros Hnot; simpl.
  - by rewrite decide_True.
  - destruct (decide (k1 = k)) as [->|Hne].
    + exfalso. apply Hnot. by left.
    + f_equal. apply IH. intros Hin. apply Hnot. by right.
Qed.

Lemma odict_del_absent d k : k ∉ odict.keys d → odict.del d k = d.
Proof.
  induction d as [|[k' v'] d IH]; [done|]. intros Hnot. unfold odict.del.
  rewrite filter_cons_True.
  - f_equal. apply IH. intros Hin. apply Hnot. by right.
  - simpl. intros ->. apply Hnot. by left.
Qed.

Lemma odict_del_app_r pre d k v :
  k ∉ odict.keys pre → k ∉ odict.keys d →
  odict.del (pre ++ (k, v) :: d) k = pre ++ d.
Proof.
  intros Hpre Hd. unfold odict.del.
  rewrite filter_app, filter_cons_False by (simpl; auto).
  fold (odict.del pre k). fold (odict.del d k).
  by rewrite !odict_del_absent.
Qed.

Lemma odict_get_del d k : odict.get (odict.del d k) k = None.
Proof.
  induction d as [|[k' v'] d IH]; [done|]. unfold odict.del.
  destruct (decide (k' = k)) as [->|Hne].
  - by rewrite filter_cons_False by (simpl; auto).
  - rewrite filter_cons_True by done. simpl. by rewrite decide_False.
Qed.

Lemma odict_get_del_ne d k k' :
  k ≠ k' → odict.get (odict.del d k) k' = odict.get d k'.
Proof.
  intros Hne. induction d as [|[k1 v1] d IH]; [done|]. unfold odict.del.
  destruct (decide (k1 = k)) as [->|Hne1].
  - rewrite filter_cons_False by (simpl; auto). simpl. by rewrite decide_False.
  - rewrite filter_cons_True by done. simpl.
    destruct (decide (k1 = k')); [done|]. apply IH.
Qed.

Lemma odict_get_set d k v : odict.get (odict.set d k v) k = Some v.
Proof.
  induction d as [|[k' v'] d IH]; simpl.
  - by rewrite decide_True.
  - destruct (decide (k' = k)); simpl; [by rewrite decide_True|].
    by rewrite decide_False.
Qed.

Lemma odict_get_set_ne d k k' v :
  k ≠ k' → odict.get (odict.set d k v) k' = odict.get d k'.
Proof.
  intros Hne. induction d as [|[k1 v1] d IH]; simpl.
  - by rewrite decide_False.
  - destruct (decide (k1 = k)) as [->|Hne1]; simpl.
    + by rewrite !decide_False.
    + destruct (decide (k1 = k')); [done|]. apply IH.
Qed.

Lemma odict_get_Some_keys d k v : odict.get d k = Some v → k ∈ odict.keys d.
Proof.
  induction d as [|[k' v'] d IH]; [done|]. simpl.
  destruct (decide (k' = k)) as [->|Hne]; intros Hget; [by left|].
  right. by apply IH.
Qed.

Lemma odict_get_None_keys d k : odict.get d k = None ↔ k ∉ odict.keys d.
Proof.
  induction d as [|[k' v'] d IH]; simpl.
  - split; [|done]. intros _ Hin. by apply elem_of_nil in Hin.
  - destruct (decide (k' = k)) as [->|Hne].
    + split; [done|]. intros Hnot. exfalso. apply Hnot. by left.
    + rewrite IH. split.
      * intros Hnot Hin. apply elem_of_cons in Hin as [->|Hin]; done.
      * intros Hnot Hin. apply Hnot. by right.
Qed.

Lemma odict_keys_set d k v :
  ∀ k', k' ∈ odict.keys (odict.set d k v) ↔ k' = k ∨ k' ∈ odict.keys d.
Proof.
  intros k'. induction d as [|[k1 v1] d IH]; simpl.
  - rewrite list_elem_of_singleton. split; [by left|]. intros [->|Hin]; [done|].
    by apply elem_of_nil in Hin.
  - destruct (decide (k1 = k)) as [->|Hne]; simpl.
    + rewrite !elem_of_cons. tauto.
    + unfold odict.keys in *. simpl. rewrite !elem_of_cons, IH. tauto.
Qed.

Lemma odict_keys_del d k :
  ∀ k', k' ∈ odict.keys (odict.del d k) ↔ k' ≠ k ∧ k' ∈ odict.keys d.
Proof.
  intros k'. unfold odict.keys, odict.del.
  rewrite !list_elem_of_fmap. split.
  - intros ([k1 v1] & -> & Hin). apply list_elem_of_filter in Hin as [Hne Hin].
    split; [done|]. by exists (k1, v1).
  - intros (Hne & [k1 v1] & -> & Hin). exists (k1, v1). split; [done|].
    by apply list_elem_of_filter.
Qed.
End odict_facts.

(** ** Properties of the refresh *)

Section refresh.
Import Itemizer Calls.

Lemma refreshed_keys c d k :
  k ∈ odict.keys (flat_map (refreshed c) d) → k ∈ odict.keys d.
Proof.
  induction d as [|[k1 r1] d IH]; [done|]. simpl. unfold odict.keys in *.
  rewrite fmap_app, elem_of_app. simpl. intros [Hin|Hin].
  - unfold refreshed in Hin. simpl in Hin.
    destruct (batches_retrieve c k1) as [b|];
      [destruct (status_in _ ACTIVE); [|destruct (status_in _ TERMINAL)]|];
      simpl in Hin; try (by apply elem_of_nil in Hin);
      apply list_elem_of_singleton in Hin as ->; by left.
  - right. by apply IH.
Qed.

Lemma refreshed_keys_sublist c k r :
  (refreshed c (k, r)).*1 `sublist_of` [k].
Proof.
  unfold refreshed. simpl.
  destruct (batches_retrieve c k) as [b|];
    [destruct (status_in _ ACTIVE); [|destruct (status_in _ TERMINAL)]|];
    simpl; try done; apply sublist_nil_l.
Qed.

(** One turn of the loop, at the record it is about. *)
Lemma refresh_step_entry c pre suf t k r :
  k ∉ odict.keys pre → k ∉ odict.keys suf →
  refresh_step c (t, pre ++ (k, r) :: suf) k
  = (t + counted c (k, r), pre ++ refreshed c (k, r) ++ suf).
Proof.
  intros Hpre Hsuf. unfold refresh_step, counted, refreshed.
  rewrite odict_get_app_r by done. simpl. rewrite decide_True by done.
  destruct (batches_retrieve c k) as [b|]; [|done].
  rewrite odict_set_app_r by done.
  destruct (status_in (status b) ACTIVE); [done|].
  destruct (status_in (status b) TERMINAL).
  - rewrite odict_del_app_r by done. simpl. f_equal. lia.
  - simpl. f_equal. lia.
Qed.

(** The loop over the snapshot of the keys treats the records one by one. *)
Lemma refresh_fold c pre suf t :
  NoDup (odict.keys (pre ++ suf)) →
  foldl (refresh_step c) (t, pre ++ suf) (odict.keys suf)
  = (t + sum_Z (counted c <$> suf), pre ++ flat_map (refreshed c) suf).
Proof.
  revert pre t. induction suf as [|[k r] suf IH]; intros pre t Hnd.
  - simpl. f_equal. unfold sum_Z. simpl. lia.
  - assert ((k ∉ odict.keys pre) ∧ (k ∉ odict.keys suf)) as [Hpre Hsuf].
    { unfold odict.keys in *. rewrite fmap_app in Hnd. simpl in Hnd.
      apply NoDup_app in Hnd as (Hnd1 & Hdisj & Hnd2).
      apply NoDup_cons in Hnd2 as [Hk Hnd2]. split; [|done].
      intros Hin. apply (Hdisj _ Hin). by left. }
    change (odict.keys ((k, r) :: suf)) with (k :: odict.keys suf).
    cbn [foldl]. rewrite refresh_step_entry by done.
    rewrite app_assoc, IH.
    + rewrite <-app_assoc. cbn [flat_map fmap list_fmap]. unfold sum_Z.
      cbn [foldr]. f_equal. lia.
    + rewrite <-app_assoc. eapply sublist_NoDup; [exact Hnd|].
      unfold odict.keys. rewrite !fmap_app.
      apply sublist_app; [done|].
      apply (sublist_app _ [k] _ _); [|done].
      apply refreshed_keys_sublist.
Qed.

Lemma refreshed_get c d k r :
  odict.ok d →
  odict.get d k = Some r →
  odict.get (flat_map (refreshed c) d) k = odict.get (refreshed c (k, r)) k.
Proof.
  unfold odict.ok. induction d as [|[k1 r1] d IH]; [done|]. intros Hnd Hget.
  unfold odict.keys in Hnd. simpl in Hnd. apply NoDup_cons in Hnd as [Hk1 Hnd].
  simpl in Hget |- *.
  destruct (decide (k1 = k)) as [->|Hne].
  - injection Hget as ->.
    assert (odict.get (flat_map (refreshed c) d) k = None) as Hrest.
    { apply odict_get_None_keys. intros Hin. by apply refreshed_keys in Hin. }
    unfold refreshed. simpl.
    destruct (batches_retrieve c k) as [b|];
      [destruct (status_in _ ACTIVE); [|destruct (status_in _ TERMINAL)]|];
      simpl; rewrite ?decide_True by done; done.
  - rewrite odict_get_app_r; [by apply IH|].
    intros Hin. unfold refreshed in Hin. simpl in Hin.
    destruct (batches_retrieve c k1) as [b|];
      [destruct (status_in _ ACTIVE); [|destruct (status_in _ TERMINAL)]|];
      simpl in Hin; try (by apply elem_of_nil in Hin);
      apply list_elem_of_singleton in Hin; done.
Qed.

(** The refresh as a whole. *)
Lemma get_current_queue_size_spec c m :
  odict.ok (active_batches (state m)) →
  (get_current_queue_size c m).2 = sum_Z (counted c <$> active_batches (state m))
  ∧ active_batches (state (get_current_queue_size c m).1)
    = flat_map (refreshed c) (active_batches (state m))
  ∧ (active_batches (state m) ≠ [] →
     STATE_FILE (get_current_queue_size c m).1 = state (get_current_queue_size c m).1).
Proof.
  intros Hok. unfold get_current_queue_size.
  destruct (active_batches (state m)) as [|entry d] eqn:Hab; [done|].
  rewrite <-Hab in *.
  pose proof (refresh_fold c [] (active_batches (state m)) 0 Hok) as Hfold.
  simpl in Hfold. rewrite Hfold. simpl. split_and!; [lia|done|done].
Qed.

(** What the refresh does with one tracked record. *)
Lemma refresh_record c m batch_id r :
  odict.ok (active_batches (state m)) →
  odict.get (active_batches (state m)) batch_id = Some r →
  let m' := (get_current_queue_size c m).1 in
  match batches_retrieve c batch_id with
  | Some batch_obj =>
      (status batch_obj ∈ ACTIVE →
         counted c (batch_id, r) = total_tokens r
         ∧ odict.get (active_batches (state m')) batch_id
           = Some (set_status r (status batch_obj)))
      ∧ (status batch_obj ∈ TERMINAL →
         counted c (batch_id, r) = 0
         ∧ odict.get (active_batches (state m')) batch_id = None
         ∧ batch_id ∉ odict.keys (active_batches (STATE_FILE m')))
  | None =>
      counted c (batch_id, r) = total_tokens r
      ∧ odict.get (active_batches (state m')) batch_id = Some r
  end.
Proof.
  intros Hok Hget m'. subst m'.
  destruct (get_current_queue_size_spec c m Hok) as (Htotal & Hab & Hsaved).
  assert (active_batches (state m) ≠ []) as Hne by (by destruct (active_batches (state m))).
  rewrite (Hsaved Hne), Hab.
  pose proof (refreshed_get c _ _ _ Hok Hget) as Hlook.
  pose proof (proj1 (odict_get_None_keys
    (flat_map (refreshed c) (active_batches (state m))) batch_id)) as Hkeys.
  rewrite Hlook in Hkeys |- *. clear Hlook.
  generalize dependent (flat_map (refreshed c) (active_batches (state m))).
  intros ab' _ Hkeys.
  unfold counted, refreshed in *. simpl in *.
  destruct (batches_retrieve c batch_id) as [b|]; simpl in *.
  - split.
    + intros Hact. unfold status_in. rewrite bool_decide_eq_true_2 by done.
      simpl. by rewrite decide_True.
    + intros Hterm.
      assert (status_in (status b) ACTIVE = false) as Hnot.
      { apply bool_decide_eq_false. intros Hact. revert Hact Hterm.
        unfold ACTIVE, TERMINAL. rewrite !elem_of_cons, !elem_of_nil.
        intros [->|[->|[->|[]]]] [?|[?|[?|[?|[]]]]]; done. }
      rewrite Hnot in *. unfold status_in in *.
      rewrite (bool_decide_eq_true_2 _ Hterm) in *. auto.
  - by rewrite decide_True.
Qed.

(** C3. The refresh: the total that comes back is the sum over the tracked
    records of what each one counts.  A record whose status comes back
    active counts its committed tokens and stays in the map; a record whose
    status comes back terminal counts nothing and is gone from the map; a
    record whose status query raises counts its committed tokens and stays
    in the map as it was. *)
Theorem refresh_total c m batch_id r :
  odict.ok (active_batches (state m)) →
  odict.get (active_batches (state m)) batch_id = Some r →
  let m' := (get_current_queue_size c m).1 in
  (get_current_queue_size c m).2 = sum_Z (counted c <$> active_batches (state m))
  ∧ match batches_retrieve c batch_id with
    | Some batch_obj =>
        (status batch_obj ∈ ACTIVE →
           counted c (batch_id, r) = total_tokens r
           ∧ odict.get (active_batches (state m')) batch_id
             = Some (set_status r (status batch_obj)))
        ∧ (status batch_obj ∈ TERMINAL →
           counted c (batch_id, r) = 0
           ∧ odict.get (active_batches (state m')) batch_id = None
           ∧ batch_id ∉ odict.keys (active_batches (STATE_FILE m')))
    | None =>
        counted c (batch_id, r) = total_tokens r
        ∧ odict.get (active_batches (state m')) batch_id = Some r
    end.
Proof.
  intros Hok Hget m'. subst m'. split.
  - by destruct (get_current_queue_size_spec c m Hok) as (Htotal & _).
  - by apply refresh_record.
Qed.

End refresh.

(** ** Properties of the batch builder *)

Section builder.
Import Itemizer Calls.

Lemma prepare_cost e filepath fd request_tokens :
  prepare e filepath = Some (fd, request_tokens) →
  request_cost e fd = request_tokens.
Proof.
  unfold prepare, request_cost. intros H.
  destruct (open_readlines e filepath) as [lines|]; [|done].
  destruct (encode e (prefixed_content e lines)) as [toks|] eqn:Henc; [|done].
  injection H as <- <-. simpl. by rewrite Henc.
Qed.

Lemma batch_cost_snoc e files fd :
  batch_cost e (files ++ [fd]) = batch_cost e files + request_cost e fd.
Proof. induction files as [|x files IH]; simpl; lia. Qed.

(** The running total is the cost of the files gathered so far and stays
    within the capacity. *)
Lemma scan_files_capacity e cap files i s s' exhausted :
  scan_files e cap files i s = (s', exhausted) →
  batch_total_tokens s = batch_cost e (files_for_batch s) →
  batch_total_tokens s <= cap →
  batch_total_tokens s' = batch_cost e (files_for_batch s')
  ∧ batch_total_tokens s' <= cap.
Proof.
  revert i s. induction files as [|filepath rest IH]; intros i s Hscan Hsum Hcap.
  - by injection Hscan as <- <-.
  - simpl in Hscan.
    destruct (prepare e filepath) as [[fd rt]|] eqn:Hprep.
    + destruct (bool_decide (batch_total_tokens s + rt > cap)) eqn:Hover.
      * simpl in Hscan. by injection Hscan as <- <-.
      * apply bool_decide_eq_false in Hover. simpl in Hscan.
        destruct (bool_decide (Z.of_nat (length (files_for_batch s)) >= MAX_FILES_PER_BATCH)).
        { by injection Hscan as <- <-. }
        apply IH in Hscan; [done| |simpl; lia].
        simpl. rewrite batch_cost_snoc, (prepare_cost _ _ _ _ Hprep). lia.
    + apply IH in Hscan; done.
Qed.

(** *** The events of a pass *)

Lemma scan_files_pass e cap files i s s' exhausted :
  scan_files e cap files i s = (s', exhausted) →
  last_file_index_in_batch s = i - 1 →
  ∃ evs,
    events s' = events s ++ evs
    ∧ pass e files i evs
    ∧ files_for_batch s' = files_for_batch s ++ omap packed_file evs
    ∧ last_file_index_in_batch s' = i - 1 + Z.of_nat (length (filter consumed evs)).
Proof.
  revert i s. induction files as [|filepath rest IH]; intros i s Hscan Hlast.
  - injection Hscan as <- <-. exists []. rewrite !app_nil_r. simpl.
    split_and!; [done|constructor|done|lia].
  - simpl in Hscan.
    destruct (prepare e filepath) as [[fd rt]|] eqn:Hprep.
    + destruct (_ || _).
      * injection Hscan as <- <-. exists [Rejected i]. simpl.
        rewrite app_nil_r. split_and!; [done|by constructor|done|lia].
      * apply IH in Hscan as (evs & Hev & Hpass & Hfiles & Hidx); [|simpl; lia].
        simpl in *. exists (Packed i fd rt :: evs).
        rewrite Hev, Hfiles, Hidx, <-!app_assoc, filter_cons_True by done.
        split_and!; [done|by constructor|done|simpl; lia].
    + apply IH in Hscan as (evs & Hev & Hpass & Hfiles & Hidx); [|simpl; lia].
      simpl in *. exists (Skipped i :: evs).
      rewrite Hev, Hfiles, Hidx, filter_cons_True by done.
      split_and!; [by rewrite <-app_assoc|by constructor|done|simpl; lia].
Qed.

(** Every event of a pass is at or after its first index. *)
Lemma pass_index_ge e files i evs ev :
  pass e files i evs → ev ∈ evs → i <= event_index ev.
Proof.
  induction 1 as [|? ? ? ? ? ? ? ? IH|? ? ? ? ? ? IH|]; intros Hin.
  - by apply elem_of_nil in Hin.
  - apply elem_of_cons in Hin as [->|Hin]; [simpl; lia|]. apply IH in Hin. lia.
  - apply elem_of_cons in Hin as [->|Hin]; [simpl; lia|]. apply IH in Hin. lia.
  - apply list_elem_of_singleton in Hin as ->. simpl. lia.
Qed.

(** The consumed indices are the first ones, without a gap. *)
Lemma pass_index_consumed e files i evs ev :
  pass e files i evs → ev ∈ evs → consumed ev = true →
  event_index ev <= i - 1 + Z.of_nat (length (filter consumed evs)).
Proof.
  induction 1 as [|? ? ? ? ? ? ? ? IH|? ? ? ? ? ? IH|]; intros Hin Hc.
  - by apply elem_of_nil in Hin.
  - rewrite filter_cons_True by done.
    apply elem_of_cons in Hin as [->|Hin]; [simpl; lia|].
    specialize (IH Hin Hc). simpl. lia.
  - rewrite filter_cons_True by done.
    apply elem_of_cons in Hin as [->|Hin]; [simpl; lia|].
    specialize (IH Hin Hc). simpl. lia.
  - apply list_elem_of_singleton in Hin as ->. done.
Qed.

Lemma pass_last_consumed e files i evs ev :
  pass e files i evs → last (filter consumed evs) = Some ev →
  event_index ev = i - 1 + Z.of_nat (length (filter consumed evs)).
Proof.
  induction 1 as [|? ? ? ? ? evs ? Hp IH|? ? ? evs ? Hp IH|]; intros Hlast.
  - done.
  - rewrite filter_cons_True in Hlast |- * by done.
    destruct (filter consumed evs) as [|ev' l] eqn:Hf.
    + injection Hlast as <-. simpl. lia.
    + rewrite last_cons_cons in Hlast. specialize (IH Hlast). simpl in *. lia.
  - rewrite filter_cons_True in Hlast |- * by done.
    destruct (filter consumed evs) as [|ev' l] eqn:Hf.
    + injection Hlast as <-. simpl. lia.
    + rewrite last_cons_cons in Hlast. specialize (IH Hlast). simpl in *. lia.
  - done.
Qed.

(** An event at index [k] is about the file at that place, and tells what
    [prepare] made of it. *)
Lemma pass_event_file e files i evs ev :
  pass e files i evs → ev ∈ evs →
  ∃ filepath,
    files !! Z.to_nat (event_index ev - i) = Some filepath
    ∧ match ev with
      | Packed _ fd request_tokens => prepare e filepath = Some (fd, request_tokens)
      | Skipped _ => prepare e filepath = None
      | Rejected _ => is_Some (prepare e filepath)
      end.
Proof.
  induction 1 as [|p rest i fd rt evs Hp Hpass IH|p rest i evs Hp Hpass IH|p rest i Hp];
    intros Hin.
  - by apply elem_of_nil in Hin.
  - apply elem_of_cons in Hin as [->|Hin].
    + exists p. simpl. by rewrite Z.sub_diag.
    + pose proof (pass_index_ge _ _ _ _ _ Hpass Hin) as Hge.
      destruct (IH Hin) as (q & Hq & Hev). exists q. split; [|done].
      replace (Z.to_nat (event_index ev - i)) with (S (Z.to_nat (event_index ev - (i + 1)))) by lia.
      done.
  - apply elem_of_cons in Hin as [->|Hin].
    + exists p. simpl. by rewrite Z.sub_diag.
    + pose proof (pass_index_ge _ _ _ _ _ Hpass Hin) as Hge.
      destruct (IH Hin) as (q & Hq & Hev). exists q. split; [|done].
      replace (Z.to_nat (event_index ev - i)) with (S (Z.to_nat (event_index ev - (i + 1)))) by lia.
      done.
  - apply list_elem_of_singleton in Hin as ->. exists p. simpl. by rewrite Z.sub_diag.
Qed.

(** *** What one call does to the state *)

Lemma build_pass e cap st st' s :
  build e cap st = (st', s) →
  valid_cursor st →
  pass e (drop (Z.to_nat (last_file_submitted_index st + 1)) (source_files st))
       (last_file_submitted_index st + 1) (events s)
  ∧ files_for_batch s = omap packed_file (events s)
  ∧ last_file_index_in_batch s
    = last_file_submitted_index st + Z.of_nat (length (filter consumed (events s)))
  ∧ last_file_submitted_index st' = last_file_index_in_batch s
  ∧ source_files st' = source_files st
  ∧ active_batches st' = active_batches st.
Proof.
  unfold build. intros Hbuild _.
  destruct (scan_files _ _ _ _ _) as [s1 ex] eqn:Hscan.
  injection Hbuild as <- <-.
  apply scan_files_pass in Hscan as (evs & Hev & Hpass & Hfiles & Hidx); [|simpl; lia].
  simpl in *. subst evs. split_and!; [done|done|lia|done|done|done].
Qed.

Lemma submit_new_batch_build e c cap m m' s :
  submit_new_batch e c cap m = (m', Some s) →
  ∃ st,
    build e cap (state m) = (st, s)
    ∧ all_files_submitted (state m) = false
    ∧ last_file_submitted_index (state m') = last_file_submitted_index st
    ∧ source_files (state m') = source_files st.
Proof.
  unfold submit_new_batch. intros Hsub.
  destruct (all_files_submitted (state m)); [done|].
  destruct (build e cap (state m)) as [st s0].
  exists st. destruct (files_for_batch s0).
  - by injection Hsub as <- <-.
  - destruct (submit c _) as [[[? ?] ?]|]; by injection Hsub as <- <-.
Qed.

Lemma submit_new_batch_returns e c cap m m' :
  submit_new_batch e c cap m = (m', None) → m' = m.
Proof.
  unfold submit_new_batch. intros Hsub.
  destruct (all_files_submitted (state m)); [by injection Hsub|].
  destruct (build e cap (state m)) as [st s0].
  destruct (files_for_batch s0); [done|].
  by destruct (submit c _) as [[[? ?] ?]|].
Qed.

(** *** The cost of a batch *)

Lemma build_capacity e cap st st' s :
  build e cap st = (st', s) →
  0 <= cap →
  batch_total_tokens s = batch_cost e (files_for_batch s)
  ∧ batch_cost e (files_for_batch s) <= cap.
Proof.
  unfold build. intros Hbuild Hcap.
  destruct (scan_files _ _ _ _ _) as [s1 ex] eqn:Hscan.
  injection Hbuild as _ ->.
  apply scan_files_capacity in Hscan as [Hsum Hle]; simpl; [|done|done].
  split; [done|lia].
Qed.

(** A turn of the loop of [run] is a refresh, followed by a call of the
    builder when the capacity that is left is positive. *)
Lemma run_iteration_perform e c m :
  let cap := QUEUE_LIMIT_TOKENS - (get_current_queue_size c m).2 in
  (run_iteration e c m).1
  = (perform_all (Refresh c :: if bool_decide (cap > 0) then [Submit e c cap] else []) m).1.
Proof.
  unfold run_iteration. simpl.
  destruct (get_current_queue_size c m) as [m1 q]. simpl.
  destruct (bool_decide (QUEUE_LIMIT_TOKENS - q > 0)); simpl; [|done].
  by destruct (submit_new_batch e c (QUEUE_LIMIT_TOKENS - q) m1) as [m2 o].
Qed.

(** The batch a turn of the loop builds fits into what the queue has left. *)
Lemma run_iteration_cost e c m s :
  let cap := QUEUE_LIMIT_TOKENS - (get_current_queue_size c m).2 in
  s ∈ (perform_all (Refresh c :: if bool_decide (cap > 0) then [Submit e c cap] else []) m).2 →
  batch_cost e (files_for_batch s) <= cap.
Proof.
  simpl. destruct (get_current_queue_size c m) as [m1 q]. simpl.
  destruct (bool_decide (QUEUE_LIMIT_TOKENS - q > 0)) eqn:Hpos; simpl;
    [|by intros ?%elem_of_nil].
  apply bool_decide_eq_true in Hpos.
  destruct (submit_new_batch e c (QUEUE_LIMIT_TOKENS - q) m1) as [m2 [s0|]] eqn:Hsub;
    [|by intros ?%elem_of_nil].
  intros ->%list_elem_of_singleton.
  apply submit_new_batch_build in Hsub as (st & Hbuild & _).
  eapply build_capacity; [done|lia].
Qed.

(** C1. Capacity respect: for a capacity that is not negative (the loop of
    [run] calls the builder only when the capacity is positive), the costs
    of the requests that one call of [submit_new_batch] puts into its batch,
    each the tokens of the system prompt plus the tokens of the content, add
    up to at most the capacity that was passed in. *)
Theorem submit_new_batch_capacity e c cap m m' s :
  0 <= cap →
  valid_cursor (state m) →
  submit_new_batch e c cap m = (m', Some s) →
  batch_cost e (files_for_batch s) <= cap.
Proof.
  intros Hcap _ Hsub.
  apply submit_new_batch_build in Hsub as (st & Hbuild & _).
  apply build_capacity in Hbuild as [Htotal Hle]; [|done].
  exact Hle.
Qed.

(** The refresh leaves the cursor and the catalog alone. *)
Lemma get_current_queue_size_cursor c m :
  last_file_submitted_index (state (get_current_queue_size c m).1)
  = last_file_submitted_index (state m)
  ∧ source_files (state (get_current_queue_size c m).1) = source_files (state m).
Proof.
  unfold get_current_queue_size.
  destruct (active_batches (state m)); [done|].
  by destruct (foldl _ _ _).
Qed.

(** One action moves the cursor forward only, and a pass looks only at
    indices after the cursor it started from. *)
Lemma perform_cursor a m m' o :
  perform a m = (m', o) →
  valid_cursor (state m) →
  last_file_submitted_index (state m) <= last_file_submitted_index (state m')
  ∧ ∀ s ev, o = Some s → ev ∈ events s →
      last_file_submitted_index (state m) < event_index ev.
Proof.
  intros Hperf Hvalid. destruct a as [c|e c cap]; simpl in Hperf.
  - injection Hperf as <- <-.
    destruct (get_current_queue_size_cursor c m) as [-> _]. split; [lia|done].
  - destruct o as [s|].
    + apply submit_new_batch_build in Hperf as (st & Hbuild & _ & -> & _).
      apply build_pass in Hbuild as (Hpass & _ & Hlast & -> & _); [|done].
      split; [lia|]. intros s' ev [= <-] Hin.
      apply (pass_index_ge _ _ _ _ _ Hpass) in Hin. lia.
    + apply submit_new_batch_returns in Hperf as ->. split; [lia|done].
Qed.

Lemma perform_all_cursor acts m m' passes :
  perform_all acts m = (m', passes) →
  valid_cursor (state m) →
  last_file_submitted_index (state m) <= last_file_submitted_index (state m')
  ∧ ∀ s ev, s ∈ passes → ev ∈ events s →
      last_file_submitted_index (state m) < event_index ev.
Proof.
  revert m m' passes. induction acts as [|a acts IH]; intros m m' passes Hall Hvalid.
  - injection Hall as <- <-. split; [lia|]. intros s ev Hin. by apply elem_of_nil in Hin.
  - simpl in Hall.
    destruct (perform a m) as [m1 o] eqn:Hperf.
    destruct (perform_all acts m1) as [m2 ps] eqn:Hrest.
    injection Hall as <- <-.
    apply perform_cursor in Hperf as [Hle Hnow]; [|done].
    apply IH in Hrest as [Hle' Hlater]; [|unfold valid_cursor in *; lia].
    split; [lia|]. intros s ev Hs Hev.
    destruct o as [s0|].
    + apply elem_of_cons in Hs as [->|Hs]; [by eapply Hnow|].
      specialize (Hlater _ _ Hs Hev). lia.
    + specialize (Hlater _ _ Hs Hev). lia.
Qed.

(** The cursor is valid when the script starts and stays valid. *)
Lemma _initialize_source_files_valid files_to_process loaded :
  valid_cursor (state (_initialize_source_files files_to_process loaded)).
Proof. unfold valid_cursor. simpl. lia. Qed.

Lemma perform_all_valid acts m :
  valid_cursor (state m) → valid_cursor (state (perform_all acts m).1).
Proof.
  intros Hvalid. destruct (perform_all acts m) as [m' passes] eqn:Hall.
  apply perform_all_cursor in Hall as [Hle _]; [|done].
  unfold valid_cursor in *. simpl. lia.
Qed.

Lemma perform_all_app acts1 acts2 m :
  perform_all (acts1 ++ acts2) m
  = let '(m1, p1) := perform_all acts1 m in
    let '(m2, p2) := perform_all acts2 m1 in
    (m2, p1 ++ p2).
Proof.
  revert m. induction acts1 as [|a acts1 IH]; intros m; simpl.
  - by destruct (perform_all acts2 m).
  - destruct (perform a m) as [m1 o]. rewrite IH.
    destruct (perform_all acts1 m1) as [m2 p1].
    destruct (perform_all acts2 m2) as [m3 p2]. by destruct o.
Qed.

(** C2. Cursor monotonicity: in every sequence of calls, at each call of
    the builder the cursor that comes back is at least the cursor that was
    given, the cursors before and after it are ordered the same way, and
    neither this call nor any later one looks at an index that is not after
    the cursor the call was given: an index at or below it is never
    reconsidered, readable or not. *)
Theorem cursor_monotone before e c cap after m :
  valid_cursor (state m) →
  let m1 := (perform_all before m).1 in
  let m2 := (submit_new_batch e c cap m1).1 in
  last_file_submitted_index (state m) <= last_file_submitted_index (state m1)
  ∧ last_file_submitted_index (state m1) <= last_file_submitted_index (state m2)
  ∧ last_file_submitted_index (state m2)
    <= last_file_submitted_index
         (state (perform_all (before ++ Submit e c cap :: after) m).1)
  ∧ ∀ s ev, s ∈ (perform_all (Submit e c cap :: after) m1).2 → ev ∈ events s →
      last_file_submitted_index (state m1) < event_index ev.
Proof.
  intros Hvalid m1 m2. subst m1 m2.
  rewrite perform_all_app.
  destruct (perform_all before m) as [m1 p1] eqn:Hbefore.
  apply perform_all_cursor in Hbefore as [Hle1 _]; [|done].
  assert (valid_cursor (state m1)) as Hvalid1 by (unfold valid_cursor in *; lia).
  simpl.
  destruct (submit_new_batch e c cap m1) as [m2 o] eqn:Hsub.
  pose proof (perform_cursor (Submit e c cap) m1 m2 o Hsub Hvalid1) as [Hle2 Hnow].
  destruct (perform_all after m2) as [m3 p3] eqn:Hafter.
  apply perform_all_cursor in Hafter as [Hle3 Hlater];
    [|unfold valid_cursor in *; lia].
  simpl. split_and!; [done|done|done|].
  intros s ev Hs Hev. destruct o as [s0|].
  - apply elem_of_cons in Hs as [->|Hs]; [by eapply Hnow|].
    specialize (Hlater _ _ Hs Hev). lia.
  - specialize (Hlater _ _ Hs Hev). lia.
Qed.

(** *** Empty batches, unreadable files, failed submissions *)

Lemma nothing_packed_consumed evs :
  omap packed_file evs = [] → filter consumed evs = filter is_skipped evs.
Proof.
  induction evs as [|ev evs IH]; [done|]. intros Hnil.
  destruct ev as [i fd rt|i|i]; simpl in Hnil; [done| |].
  - rewrite !filter_cons_True by done. f_equal. by apply IH.
  - rewrite !filter_cons_False by (simpl; auto). by apply IH.
Qed.

Lemma packed_file_index_length evs :
  length (omap packed_index evs) = length (omap packed_file evs).
Proof.
  induction evs as [|ev evs IH]; [done|].
  destruct ev; cbn; by rewrite ?IH.
Qed.

Lemma nothing_skipped evs :
  (∀ i, Skipped i ∉ evs) → filter is_skipped evs = [].
Proof.
  induction evs as [|ev evs IH]; [done|]. intros Hno.
  assert (∀ i, Skipped i ∉ evs) as Hno'.
  { intros i Hin. apply (Hno i). by right. }
  destruct ev as [|i|].
  - rewrite filter_cons_False by (simpl; auto). by apply IH.
  - exfalso. apply (Hno i). by left.
  - rewrite filter_cons_False by (simpl; auto). by apply IH.
Qed.

(** The file a pass of [build] has at index [k]. *)
Lemma build_event_file e cap st st' s ev :
  build e cap st = (st', s) →
  valid_cursor st →
  ev ∈ events s →
  ∃ filepath,
    source_files st !! Z.to_nat (event_index ev) = Some filepath
    ∧ match ev with
      | Packed _ fd request_tokens => prepare e filepath = Some (fd, request_tokens)
      | Skipped _ => prepare e filepath = None
      | Rejected _ => is_Some (prepare e filepath)
      end.
Proof.
  intros Hbuild Hvalid Hin.
  apply build_pass in Hbuild as (Hpass & _); [|done].
  pose proof (pass_index_ge _ _ _ _ _ Hpass Hin) as Hge.
  destruct (pass_event_file _ _ _ _ _ Hpass Hin) as (q & Hq & Hev).
  exists q. split; [|done].
  rewrite lookup_drop in Hq. rewrite <-Hq. f_equal.
  unfold valid_cursor in Hvalid. lia.
Qed.

(** C4, as the code has it: when the batch that was built is empty, the
    cursor that is committed is the cursor the call started from plus the
    number of unreadable files the pass skipped; it is the starting cursor
    exactly when the pass skipped no file.  The state is saved with it. *)
Theorem empty_build_cursor e c cap m m' s :
  valid_cursor (state m) →
  submit_new_batch e c cap m = (m', Some s) →
  files_for_batch s = [] →
  last_file_submitted_index (state m')
  = last_file_submitted_index (state m)
    + Z.of_nat (length (filter is_skipped (events s)))
  ∧ (last_file_submitted_index (state m') = last_file_submitted_index (state m)
     ↔ ∀ i, Skipped i ∉ events s)
  ∧ STATE_FILE m' = state m'.
Proof.
  intros Hvalid Hsub Hempty.
  assert (STATE_FILE m' = state m') as Hsaved.
  { unfold submit_new_batch in Hsub.
    destruct (all_files_submitted (state m)); [done|].
    destruct (build e cap (state m)) as [st s0].
    destruct (files_for_batch s0) eqn:Hf; [by injection Hsub as <- _|].
    destruct (submit c _) as [[[? ?] ?]|]; injection Hsub as <- <-; [done|].
    by rewrite Hf in Hempty. }
  apply submit_new_batch_build in Hsub as (st & Hbuild & _ & -> & _).
  apply build_pass in Hbuild as (_ & Hfiles & Hlast & -> & _); [|done].
  rewrite Hempty in Hfiles. symmetry in Hfiles.
  rewrite (nothing_packed_consumed _ Hfiles) in Hlast.
  split_and!; [done| |done].
  rewrite Hlast. split.
  - intros Heq i Hin.
    assert (filter is_skipped (events s) = []) as Hnil
      by (apply length_zero_iff_nil; lia).
    by eapply (filter_nil_not_elem_of _ _ (Skipped i)) in Hnil.
  - intros Hno.
    rewrite (nothing_skipped _ Hno). simpl. lia.
Qed.

(** C5. Skip on error: when the file at index [k] cannot be read or
    encoded and a pass of the builder reaches [k], the cursor that is
    committed is at least [k], the file is not put into the batch that is
    built, and no later call, whatever the files and the service then do,
    puts it into a batch. *)
Theorem skip_on_error e c cap m m' s k filepath :
  valid_cursor (state m) →
  submit_new_batch e c cap m = (m', Some s) →
  source_files (state m) !! Z.to_nat k = Some filepath →
  prepare e filepath = None →
  k ∈ event_index <$> events s →
  k <= last_file_submitted_index (state m')
  ∧ Skipped k ∈ events s
  ∧ (∀ fd request_tokens, Packed k fd request_tokens ∉ events s)
  ∧ files_for_batch s = omap packed_file (events s)
  ∧ ∀ acts s' fd request_tokens,
      s' ∈ (perform_all acts m').2 → Packed k fd request_tokens ∉ events s'.
Proof.
  intros Hvalid Hsub Hfile Hprep Hreach.
  apply submit_new_batch_build in Hsub as (st & Hbuild & _ & Hcur & _).
  pose proof (build_pass _ _ _ _ _ Hbuild Hvalid) as (Hpass & Hfiles & Hlast & Hst & _).
  apply list_elem_of_fmap in Hreach as (ev & -> & Hin).
  destruct (build_event_file _ _ _ _ _ _ Hbuild Hvalid Hin) as (q & Hq & Hev).
  rewrite Hfile in Hq. injection Hq as <-.
  destruct ev as [i fd rt|i|i]; simpl in *.
  { by rewrite Hprep in Hev. }
  2: { rewrite Hprep in Hev. by destruct Hev. }
  assert (i <= last_file_submitted_index (state m')) as Hle.
  { rewrite Hcur, Hst, Hlast.
    pose proof (pass_index_consumed _ _ _ _ _ Hpass Hin eq_refl) as Hc.
    simpl in Hc. lia. }
  split_and!; [done|done| |done|].
  - intros fd rt Hpacked.
    destruct (build_event_file _ _ _ _ _ _ Hbuild Hvalid Hpacked) as (q & Hq & Hev').
    simpl in Hq. rewrite Hfile in Hq. injection Hq as <-. by rewrite Hprep in Hev'.
  - intros acts s' fd rt Hs' Hpacked.
    destruct (perform_all acts m') as [m'' passes] eqn:Hall.
    apply perform_all_cursor in Hall as [_ Hlater].
    + specialize (Hlater _ _ Hs' Hpacked). simpl in Hlater. lia.
    + pose proof (pass_index_ge _ _ _ _ _ Hpass Hin) as Hge. simpl in Hge.
      unfold valid_cursor in *. lia.
Qed.

(** C6, as the code has it: when a batch that is not empty was built and
    its submission raises, the state keeps the cursor of the build.  That
    cursor is the index of the last file the pass consumed, packed or
    skipped as unreadable; it is greater than the cursor before the build
    and at least the index of the last file that was packed.  The state is
    not saved on this path. *)
Theorem failed_submission_cursor e c cap m m' s :
  valid_cursor (state m) →
  submit_new_batch e c cap m = (m', Some s) →
  files_for_batch s ≠ [] →
  submit c (files_for_batch s) = None →
  last_file_submitted_index (state m') = last_file_index_in_batch s
  ∧ last_file_submitted_index (state m) < last_file_submitted_index (state m')
  ∧ (∃ ev, last (filter consumed (events s)) = Some ev
           ∧ last_file_submitted_index (state m') = event_index ev)
  ∧ (∃ k, last_packed_index (events s) = Some k
          ∧ k <= last_file_submitted_index (state m'))
  ∧ active_batches (state m') = active_batches (state m)
  ∧ STATE_FILE m' = STATE_FILE m.
Proof.
  intros Hvalid Hsub Hne Hfail.
  assert (active_batches (state m') = active_batches (state m)
          ∧ STATE_FILE m' = STATE_FILE m) as [Hab Hdisk].
  { unfold submit_new_batch in Hsub.
    destruct (all_files_submitted (state m)); [done|].
    destruct (build e cap (state m)) as [st s0] eqn:Hbuild.
    apply build_pass in Hbuild as (_ & _ & _ & _ & _ & Hab); [|done].
    destruct (files_for_batch s0) eqn:Hf; [by injection Hsub as _ <-|].
    destruct (submit c _) as [[[? ?] ?]|] eqn:Hs; injection Hsub as <- <-; [|done].
    rewrite Hf in Hfail. congruence. }
  apply submit_new_batch_build in Hsub as (st & Hbuild & _ & Hcur & _).
  apply build_pass in Hbuild as (Hpass & Hfiles & Hlast & Hst & _); [|done].
  rewrite Hcur, Hst.
  assert (∃ k, last_packed_index (events s) = Some k) as [k Hk].
  { apply last_is_Some. intros Hnil. apply Hne.
    apply length_zero_iff_nil.
    by rewrite Hfiles, <-packed_file_index_length, Hnil. }
  pose proof Hk as Hin. apply last_Some_elem_of in Hin.
  apply list_elem_of_omap in Hin as (ev & Hin & Hev).
  destruct ev as [i fd rt| |]; [|done|done]. injection Hev as ->.
  pose proof (pass_index_ge _ _ _ _ _ Hpass Hin) as Hge.
  pose proof (pass_index_consumed _ _ _ _ _ Hpass Hin eq_refl) as Hle.
  simpl in Hge, Hle.
  assert (is_Some (last (filter consumed (events s)))) as [ev' Hev'].
  { apply last_is_Some. intros Hnil.
    by eapply (filter_nil_not_elem_of _ _ (Packed k fd rt)) in Hnil. }
  split_and!; [done|lia| |exists k; split; [done|lia]|done|done].
  exists ev'. split; [done|].
  rewrite (pass_last_consumed _ _ _ _ _ Hpass Hev'). lia.
Qed.

End builder.

(** ** Properties of the retrieval script *)

Section retrieval.
Import Retriever Pipeline.
Context {payload : Type} (parse_line : string → line_result payload).

Lemma batches_retrieve_id c k b : batches_retrieve c k = Some b → id b = k.
Proof.
  unfold batches_retrieve. destruct (retrieve c k) as [[st out]|]; [|done].
  by intros [= <-].
Qed.

(** A batch that [get_new_completed_batches] returns is a key of the map
    that is not processed yet and that the service reports completed. *)
Lemma check_batches_sound c P ids b :
  b ∈ (check_batches c P ids).1 →
  id b ∈ ids ∧ (id b ∉ P) ∧ status b = "completed"
  ∧ batches_retrieve c (id b) = Some b.
Proof.
  induction ids as [|k ids IH]; simpl; [by intros ?%elem_of_nil|].
  destruct (check_batches c P ids) as [bs evs]. simpl in IH.
  assert (b ∈ bs → id b ∈ k :: ids ∧ (id b ∉ P) ∧ status b = "completed"
                   ∧ batches_retrieve c (id b) = Some b) as IH'.
  { intros Hin. destruct (IH Hin) as (? & ? & ? & ?). split_and!; [by right|done..]. }
  destruct (bool_decide (k ∈ P)) eqn:HP; [done|].
  apply bool_decide_eq_false in HP.
  destruct (batches_retrieve c k) as [batch|] eqn:Hretr; [|done].
  destruct (bool_decide (status batch = "completed")) eqn:Hst; [|done].
  apply bool_decide_eq_true in Hst. simpl.
  intros [->|Hin]%elem_of_cons; [|by apply IH'].
  pose proof (batches_retrieve_id _ _ _ Hretr) as Hid. rewrite Hid.
  split_and!; [by left|done|done|done].
Qed.

(** The only calls it makes are status queries for keys of the map that
    are not processed yet. *)
Lemma check_batches_events c P ids ev :
  ev ∈ (check_batches c P ids).2 → ∃ k, ev = Retrieve k ∧ k ∈ ids ∧ k ∉ P.
Proof.
  induction ids as [|k ids IH]; simpl; [by intros ?%elem_of_nil|].
  destruct (check_batches c P ids) as [bs evs]. simpl in IH.
  assert (ev ∈ evs → ∃ k0, ev = Retrieve k0 ∧ k0 ∈ k :: ids ∧ k0 ∉ P) as IH'.
  { intros Hin. destruct (IH Hin) as (k0 & ? & ? & ?). exists k0.
    split_and!; [done|by right|done]. }
  destruct (bool_decide (k ∈ P)) eqn:HP; [done|].
  apply bool_decide_eq_false in HP.
  assert (ev ∈ Retrieve k :: evs → ∃ k0, ev = Retrieve k0 ∧ k0 ∈ k :: ids ∧ k0 ∉ P) as Hk.
  { intros [->|Hin]%elem_of_cons; [|by apply IH'].
    exists k. split_and!; [done|by left|done]. }
  destruct (batches_retrieve c k) as [batch|]; [|done].
  by destruct (bool_decide (status batch = "completed")).
Qed.

(** When every completed batch of the map is processed already, there is
    nothing new. *)
Lemma check_batches_none c P ids :
  (∀ k b, k ∈ ids → batches_retrieve c k = Some b →
          status b = "completed" → k ∈ P) →
  (check_batches c P ids).1 = [].
Proof.
  induction ids as [|k ids IH]; [done|]. intros Hall. simpl.
  destruct (check_batches c P ids) as [bs evs]. simpl in IH.
  rewrite IH by (intros k0 b Hin; apply Hall; by right).
  destruct (bool_decide (k ∈ P)) eqn:HP; [done|].
  apply bool_decide_eq_false in HP.
  destruct (batches_retrieve c k) as [batch|] eqn:Hretr; [|done].
  destruct (bool_decide (status batch = "completed")) eqn:Hst; [|done].
  apply bool_decide_eq_true in Hst.
  exfalso. apply HP. eapply Hall; [by left|done..].
Qed.

Lemma process_batch_result_events c b ev :
  ev ∈ (process_batch_result parse_line c b).2 → event_batch ev = id b.
Proof.
  unfold process_batch_result.
  destruct (output_file_id b) as [file_id|]; [|by intros ?%elem_of_nil].
  destruct (bool_decide (file_id = "")); [by intros ?%elem_of_nil|].
  destruct (download c file_id); simpl; by intros ->%list_elem_of_singleton.
Qed.

(** The loop of [run] over the new batches. *)
Lemma run_step_fold c acc P evs bs :
  foldl (run_step parse_line c) (acc, P, evs) bs
  = (foldl (λ a b, (process_batch_result parse_line c b).1 ∪ a) acc bs,
     list_to_set (id <$> bs) ∪ P,
     evs ++ flat_map (λ b, (process_batch_result parse_line c b).2 ++ [Update (id b)]) bs).
Proof.
  revert acc P evs. induction bs as [|b bs IH]; intros acc P evs.
  - simpl. rewrite app_nil_r. f_equal. f_equal. by rewrite (left_id_L ∅ (∪)).
  - cbn [foldl]. unfold run_step at 2.
    destruct (process_batch_result parse_line c b) as [res evs1] eqn:Hres.
    rewrite IH. cbn [flat_map fmap list_fmap list_to_set foldr].
    rewrite Hres. simpl. rewrite <-!app_assoc. f_equal. f_equal.
    rewrite (comm_L (∪) {[id b]} (list_to_set (id <$> bs))).
    by rewrite (assoc_L (∪)).
Qed.

(** One run as a whole: the batches it marks, the calls it makes, and the
    entries of the merged results after it. *)
Lemma run_spec c timestamp submission_state f :
  let nb := (get_new_completed_batches c (processed_batch_ids f)
               submission_state).1 in
  let f' := (run parse_line c timestamp submission_state f).1 in
  processed_batch_ids f' = list_to_set (id <$> nb) ∪ processed_batch_ids f
  ∧ (∀ ev, ev ∈ (run parse_line c timestamp submission_state f).2 →
       ev ∈ (get_new_completed_batches c (processed_batch_ids f)
               submission_state).2
       ∨ ∃ b, b ∈ nb ∧ event_batch ev = id b)
  ∧ (∀ k, stored f' k
          = match all_new_results parse_line c nb !! k with
            | Some p => Some p
            | None => stored f k
            end)
  ∧ (nb = [] → f' = f).
Proof.
  intros nb f'. subst nb f'. unfold run.
  destruct (get_new_completed_batches _ _ _) as [nb evs]. simpl.
  destruct nb as [|b0 nb0] eqn:Hnb.
  - simpl. split_and!; [by rewrite (left_id_L ∅ (∪))|by left|done|done].
  - assert (nb ≠ []) as Hne by (by rewrite Hnb).
    rewrite <-Hnb. clear Hnb. rewrite run_step_fold.
    fold (all_new_results parse_line c nb).
    assert (∀ ev, ev ∈ evs ++ flat_map (λ b,
                (process_batch_result parse_line c b).2 ++ [Update (id b)]) nb →
              ev ∈ evs ∨ ∃ b, b ∈ nb ∧ event_batch ev = id b) as Hevs.
    { intros ev [Hin|Hin]%elem_of_app; [by left|]. right.
      apply list_elem_of_In, in_flat_map in Hin as (b & Hb & Hin).
      apply list_elem_of_In in Hb, Hin. exists b. split; [done|].
      apply elem_of_app in Hin as [Hin| ->%list_elem_of_singleton]; [|done].
      by eapply process_batch_result_events. }
    destruct (bool_decide (all_new_results parse_line c nb = ∅)) eqn:Hempty; simpl.
    + apply bool_decide_eq_true in Hempty. rewrite Hempty.
      split_and!; [done|done| |done].
      intros k. by rewrite lookup_empty.
    + split_and!; [done|done| |done].
      intros k. unfold stored. simpl. rewrite lookup_union.
      destruct (all_new_results parse_line c nb !! k) as [p|]; simpl.
      * by destruct (_ !! k).
      * destruct (MERGED_OUTPUT_FILE f) as [old|]; simpl.
        -- by destruct (results old !! k).
        -- by rewrite lookup_empty.
Qed.

Lemma check_batches_complete c P ids k b :
  k ∈ ids → k ∉ P → batches_retrieve c k = Some b → status b = "completed" →
  b ∈ (check_batches c P ids).1.
Proof.
  intros Hin HP Hretr Hst. induction ids as [|k0 ids IH]; [by apply elem_of_nil in Hin|].
  simpl. destruct (check_batches c P ids) as [bs evs]. simpl in IH.
  apply elem_of_cons in Hin as [<-|Hin].
  - rewrite bool_decide_eq_false_2, Hretr, bool_decide_eq_true_2 by done. by left.
  - specialize (IH Hin).
    destruct (bool_decide (k0 ∈ P)); [done|].
    destruct (batches_retrieve c k0) as [batch|]; [|done].
    destruct (bool_decide (status batch = "completed")); [by right|done].
Qed.

(** Every call and every merge of a run is about a candidate, a key of the
    map in the state file, that is not processed yet. *)
Lemma run_events_candidates c timestamp submission_state f ev :
  ev ∈ (run parse_line c timestamp submission_state f).2 →
  event_batch ev ∈ batch_ids_to_check submission_state
  ∧ event_batch ev ∉ processed_batch_ids f.
Proof.
  intros Hin.
  destruct (run_spec c timestamp submission_state f) as (_ & Hevs & _).
  destruct (Hevs ev Hin) as [Hq|(b & Hb & ->)].
  - apply check_batches_events in Hq as (k & -> & Hk & HP). done.
  - apply check_batches_sound in Hb as (Hk & HP & _). done.
Qed.

(** A run marks candidates only. *)
Lemma run_processed c timestamp submission_state f k :
  k ∈ processed_batch_ids (run parse_line c timestamp submission_state f).1 →
  k ∈ processed_batch_ids f ∨ k ∈ batch_ids_to_check submission_state.
Proof.
  destruct (run_spec c timestamp submission_state f) as (-> & _).
  rewrite elem_of_union, elem_of_list_to_set, list_elem_of_fmap.
  intros [(b & -> & Hb)|HP]; [right|by left].
  by apply check_batches_sound in Hb as (Hk & _).
Qed.

(** C7. Idempotent reconciliation: a run makes no call and no merge for a
    handle that is in the processed set; when every completed batch of the
    submission state is in the processed set, a run leaves the processed set
    and the merged results as they are; and that is the case for a second
    run that finds the submission state and the answers of the service
    unchanged. *)
Theorem reconcile_idempotent c timestamp timestamp' submission_state f :
  (∀ ev, ev ∈ (run parse_line c timestamp submission_state f).2 →
         event_batch ev ∉ processed_batch_ids f)
  ∧ ((∀ k b, k ∈ batch_ids_to_check submission_state →
             batches_retrieve c k = Some b → status b = "completed" →
             k ∈ processed_batch_ids f) →
     (run parse_line c timestamp submission_state f).1 = f)
  ∧ (run parse_line c timestamp' submission_state
       (run parse_line c timestamp submission_state f).1).1
    = (run parse_line c timestamp submission_state f).1.
Proof.
  assert (∀ ts g,
    (∀ k b, k ∈ batch_ids_to_check submission_state →
            batches_retrieve c k = Some b → status b = "completed" →
            k ∈ processed_batch_ids g) →
    (run parse_line c ts submission_state g).1 = g) as Hnoop.
  { intros ts g Hall.
    destruct (run_spec c ts submission_state g) as (_ & _ & _ & Hsame).
    apply Hsame. by apply check_batches_none. }
  split_and!.
  - intros ev Hin. by apply run_events_candidates in Hin as [_ ?].
  - apply Hnoop.
  - apply Hnoop. intros k b Hk Hretr Hst.
    destruct (run_spec c timestamp submission_state f) as (-> & _).
    destruct (decide (k ∈ processed_batch_ids f)) as [HP|HP].
    + apply elem_of_union. by right.
    + apply elem_of_union. left. apply elem_of_list_to_set, list_elem_of_fmap.
      exists b. split; [by rewrite (batches_retrieve_id _ _ _ Hretr)|].
      by eapply check_batches_complete.
Qed.

(** C8, where the code departs from it: a completed batch whose output
    cannot be downloaded yields no result, and the run marks it as
    processed all the same; every later run, whatever the service and the
    submission state are then, makes no call and no merge for it, so its
    results are never merged. *)
Theorem failed_download_is_marked c timestamp submission_state f b file_id :
  b ∈ (get_new_completed_batches c (processed_batch_ids f) submission_state).1 →
  output_file_id b = Some file_id →
  download c file_id = None →
  let f1 := (run parse_line c timestamp submission_state f).1 in
  (process_batch_result parse_line c b).1 = ∅
  ∧ id b ∈ processed_batch_ids f1
  ∧ ∀ c' timestamp' submission_state' ev,
      ev ∈ (run parse_line c' timestamp' submission_state' f1).2 →
      event_batch ev ≠ id b.
Proof.
  intros Hb Hout Hdown f1. subst f1.
  assert (id b ∈ processed_batch_ids
            (run parse_line c timestamp submission_state f).1) as Hmarked.
  { destruct (run_spec c timestamp submission_state f) as (-> & _).
    apply elem_of_union. left. apply elem_of_list_to_set, list_elem_of_fmap.
    by exists b. }
  split_and!; [|done|].
  - unfold process_batch_result. rewrite Hout.
    destruct (bool_decide (file_id = "")); [done|]. by rewrite Hdown.
  - intros c' ts' sub' ev Hin Heq.
    apply run_events_candidates in Hin as [_ Hnot]. by rewrite Heq in Hnot.
Qed.

(** *** Merging *)

Lemma all_new_results_fold_none c l acc k :
  (∀ b, b ∈ l → (process_batch_result parse_line c b).1 !! k = None) →
  foldl (λ a b, (process_batch_result parse_line c b).1 ∪ a) acc l !! k = acc !! k.
Proof.
  revert acc. induction l as [|b l IH]; intros acc Hnone; [done|].
  cbn [foldl]. rewrite IH by (intros b' Hb'; apply Hnone; by right).
  apply lookup_union_r, Hnone. by left.
Qed.

Lemma all_new_results_last c before b2 after k p2 :
  (process_batch_result parse_line c b2).1 !! k = Some p2 →
  (∀ b, b ∈ after → (process_batch_result parse_line c b).1 !! k = None) →
  all_new_results parse_line c (before ++ b2 :: after) !! k = Some p2.
Proof.
  intros Hb2 Hafter. unfold all_new_results.
  rewrite foldl_app. cbn [foldl].
  rewrite all_new_results_fold_none by done.
  by apply lookup_union_Some_l.
Qed.

(** C9. Last writer wins: when several batches of one run carry a payload
    for the same identity, the merged results hold the payload of the batch
    that is merged last, whatever an earlier batch or the results of an
    earlier run held for that identity; an identity that no new batch
    carries keeps the entry it had; and an identity that had an entry still
    has one. *)
Theorem last_writer_wins c timestamp submission_state f before b2 after k p2 :
  (get_new_completed_batches c (processed_batch_ids f) submission_state).1
    = before ++ b2 :: after →
  (process_batch_result parse_line c b2).1 !! k = Some p2 →
  (∀ b, b ∈ after → (process_batch_result parse_line c b).1 !! k = None) →
  let f' := (run parse_line c timestamp submission_state f).1 in
  stored f' k = Some p2
  ∧ (∀ k' p', stored f k' = Some p' →
       (∀ b, b ∈ before ++ b2 :: after →
             (process_batch_result parse_line c b).1 !! k' = None) →
       stored f' k' = Some p')
  ∧ (∀ k', is_Some (stored f k') → is_Some (stored f' k')).
Proof.
  intros Hnb Hb2 Hafter f'. subst f'.
  destruct (run_spec c timestamp submission_state f) as (_ & _ & Hstored & _).
  rewrite Hnb in Hstored. split_and!.
  - by rewrite Hstored, (all_new_results_last _ _ _ _ _ _ Hb2 Hafter).
  - intros k' p' Hold Hnone. rewrite Hstored.
    unfold all_new_results. rewrite all_new_results_fold_none by done.
    by rewrite lookup_empty.
  - intros k' Hsome. rewrite Hstored. by destruct (all_new_results _ _ _ !! k').
Qed.

End retrieval.

(** ** The two scripts together *)

Section pipeline.
Import Itemizer Calls Retriever Pipeline.
Context {payload : Type} (parse_line : string → line_result payload).

(** A refresh adds no key to the map. *)
Lemma refresh_step_keys c acc k0 k :
  k ∈ odict.keys (refresh_step c acc k0).2 → k ∈ odict.keys acc.2.
Proof.
  destruct acc as [t ab]. unfold refresh_step. simpl.
  destruct (odict.get ab k0) as [r|] eqn:Hget; [|done].
  apply odict_get_Some_keys in Hget.
  assert (∀ v, k ∈ odict.keys (odict.set ab k0 v) → k ∈ odict.keys ab) as Hset.
  { intros v [->|Hin]%odict_keys_set; done. }
  destruct (batches_retrieve c k0) as [b|]; [|done].
  destruct (status_in (status b) ACTIVE); simpl; [by apply Hset|].
  destruct (status_in (status b) TERMINAL); simpl; [|by apply Hset].
  intros [_ Hin]%odict_keys_del. by eapply Hset.
Qed.

Lemma refresh_fold_keys c acc ks k :
  k ∈ odict.keys (foldl (refresh_step c) acc ks).2 → k ∈ odict.keys acc.2.
Proof.
  revert acc. induction ks as [|k0 ks IH]; intros acc; [done|].
  cbn [foldl]. intros Hin. apply IH in Hin. by eapply refresh_step_keys.
Qed.

Lemma get_current_queue_size_keys c m k :
  (k ∈ odict.keys (active_batches (state (get_current_queue_size c m).1)) →
   k ∈ odict.keys (active_batches (state m)))
  ∧ (STATE_FILE (get_current_queue_size c m).1 = STATE_FILE m
     ∨ STATE_FILE (get_current_queue_size c m).1
       = state (get_current_queue_size c m).1).
Proof.
  unfold get_current_queue_size.
  destruct (active_batches (state m)) as [|entry d] eqn:Hab.
  - simpl. rewrite Hab. split; [done|by left].
  - rewrite <-Hab.
    pose proof (refresh_fold_keys c (0, active_batches (state m))
                  (odict.keys (active_batches (state m))) k) as Hkeys.
    destruct (foldl _ _ _) as [total ab]. simpl in *. split; [done|by right].
Qed.

(** A call of the builder adds at most the handle the service gave to the
    new batch. *)
Lemma submit_new_batch_keys e c cap m k :
  (k ∈ odict.keys (active_batches (state (submit_new_batch e c cap m).1)) →
   k ∈ odict.keys (active_batches (state m))
   ∨ ∃ file_id st, create c file_id = Some (k, st))
  ∧ (STATE_FILE (submit_new_batch e c cap m).1 = STATE_FILE m
     ∨ STATE_FILE (submit_new_batch e c cap m).1
       = state (submit_new_batch e c cap m).1).
Proof.
  unfold submit_new_batch.
  destruct (all_files_submitted (state m)); [split; [by left|by left]|].
  destruct (build e cap (state m)) as [st s] eqn:Hbuild.
  assert (active_batches st = active_batches (state m)) as Hab.
  { unfold build in Hbuild. destruct (scan_files _ _ _ _ _).
    by injection Hbuild as <- _. }
  destruct (files_for_batch s) as [|fd fds]; simpl.
  - rewrite Hab. split; [by left|by right].
  - unfold submit. destruct (upload c (fd :: fds)) as [file_id|]; simpl.
    + destruct (create c file_id) as [[batch_id bst]|] eqn:Hcreate; simpl.
      * rewrite Hab. split; [|by right].
        intros [->|Hin]%odict_keys_set; [right; eauto|by left].
      * rewrite Hab. split; [by left|by left].
    + rewrite Hab. split; [by left|by left].
Qed.

Lemma sys_step_forgotten h s s' :
  sys_step parse_line h s s' → forgotten h s → forgotten h s'.
Proof.
  intros Hstep (Hmem & Hdisk & Hproc & Hlog).
  destruct Hstep as [c s|e c cap s Hfresh|files s|c ts s]; unfold forgotten; simpl.
  - destruct (get_current_queue_size_keys c (submitter s) h) as [Hkeys Hfile].
    assert (h ∉ odict.keys (active_batches
              (state (get_current_queue_size c (submitter s)).1))) as Hmem'
      by (intros Hin; by apply Hmem, Hkeys).
    split_and!; [done| |done|done].
    by destruct Hfile as [-> | ->].
  - destruct (submit_new_batch_keys e c cap (submitter s) h) as [Hkeys Hfile].
    assert (h ∉ odict.keys (active_batches
              (state (submit_new_batch e c cap (submitter s)).1))) as Hmem'.
    { intros Hin. destruct (Hkeys Hin) as [?|(file_id & st & Hcreate)]; [done|].
      by eapply Hfresh. }
    split_and!; [done| |done|done].
    by destruct Hfile as [-> | ->].
  - done.
  - split_and!; [done|done| |].
    + intros Hin. by apply run_processed in Hin as [?|?].
    + intros ev [Hin|Hin]%elem_of_app; [by apply Hlog|].
      apply run_events_candidates in Hin as [Hin _]. intros Heq.
      rewrite Heq in Hin. done.
Qed.

Lemma rtc_forgotten h s s' :
  rtc (sys_step parse_line h) s s' → forgotten h s → forgotten h s'.
Proof.
  induction 1 as [|s1 s2 s3 Hstep _ IH]; [done|].
  intros Hs1. apply IH. by eapply sys_step_forgotten.
Qed.

(** C10. A batch the refresh of the submission loop saw in a terminal
    status and removed before the retrieval script had processed it is
    lost to the retrieval script: whatever the two scripts do afterwards,
    as long as the service gives the handle to no new batch, the handle is
    not a key of the map in the state file, every call and merge of a run
    of the retrieval script is about a key of that map, and so no run
    queries the handle, downloads its output, merges it or marks it. *)
Theorem terminal_batch_never_reconciled c0 m0 h r b f0 s :
  odict.ok (active_batches (state m0)) →
  odict.get (active_batches (state m0)) h = Some r →
  batches_retrieve c0 h = Some b →
  status b ∈ TERMINAL →
  h ∉ processed_batch_ids f0 →
  rtc (sys_step parse_line h)
      {| submitter := (get_current_queue_size c0 m0).1;
         retriever := f0;
         log := [] |} s →
  (h ∉ odict.keys (active_batches (STATE_FILE (submitter s))))
  ∧ (h ∉ processed_batch_ids (retriever s))
  ∧ (∀ ev, ev ∈ log s → event_batch ev ≠ h)
  ∧ ∀ c timestamp ev,
      ev ∈ (run parse_line c timestamp (Some (STATE_FILE (submitter s)))
              (retriever s)).2 →
      event_batch ev ∈ odict.keys (active_batches (STATE_FILE (submitter s)))
      ∧ event_batch ev ≠ h.
Proof.
  intros Hok Hget Hretr Hterm Hproc Hsteps.
  assert (forgotten h s) as (Hmem & Hdisk & Hproc' & Hlog).
  { eapply rtc_forgotten; [done|].
    pose proof (refresh_record c0 m0 h r Hok Hget) as Hrec.
    rewrite Hretr in Hrec. destruct Hrec as [_ Hgone].
    destruct (Hgone Hterm) as (_ & Hnone & Hfile).
    unfold forgotten. simpl. split_and!; [|done|done|].
    - by apply odict_get_None_keys.
    - intros ev Hin. by apply elem_of_nil in Hin. }
  split_and!; [done|done|done|].
  intros c ts ev Hin. apply run_events_candidates in Hin as [Hin _].
  simpl in Hin. split; [done|]. intros Heq. by rewrite Heq in Hin.
Qed.

End pipeline.

(** ** The properties on the small catalog and the small service *)

Section examples.
Import Itemizer Calls Retriever Pipeline Examples.

Lemma valid_cursor_manager : valid_cursor (state manager).
Proof. unfold valid_cursor. simpl. lia. Defined.

Lemma valid_cursor_unreadable_first : valid_cursor (state unreadable_first).
Proof. unfold valid_cursor. simpl. lia. Defined.

Lemma ok_tracking : odict.ok (active_batches (state tracking)).
Proof. apply (bool_decide_unpack _). vm_compute. exact I. Defined.

(** With a capacity of 100 the first and the third file are packed, at 44
    tokens each. *)
Lemma submit_new_batch_capacity_witness :
  ∃ s, (submit_new_batch env down 100 manager).2 = Some s
       ∧ batch_cost env (files_for_batch s) <= 100.
Proof.
  eexists. split; [vm_compute; reflexivity|].
  eapply (submit_new_batch_capacity env down 100 manager
            (submit_new_batch env down 100 manager).1).
  - lia.
  - exact valid_cursor_manager.
  - vm_compute. reflexivity.
Defined.

(** A refresh, a call whose submission fails, a call that is accepted. *)
Lemma cursor_monotone_witness :
  let m1 := (perform_all [Refresh polling] manager).1 in
  last_file_submitted_index (state m1)
    <= last_file_submitted_index (state (submit_new_batch env down 50 m1).1)
  ∧ ∀ s ev,
      s ∈ (perform_all [Submit env down 50; Submit env accepting 100] m1).2 →
      ev ∈ events s →
      last_file_submitted_index (state m1) < event_index ev.
Proof.
  destruct (cursor_monotone [Refresh polling] env down 50
              [Submit env accepting 100] manager valid_cursor_manager)
    as (_ & Hle & _ & Hev).
  split; [exact Hle|exact Hev].
Defined.

(** Of the three tracked batches the completed one is dropped, and the one
    whose query raises and the running one are counted: 20 + 40. *)
Lemma refresh_total_witness :
  (get_current_queue_size polling tracking).2 = 60
  ∧ odict.get (active_batches (state (get_current_queue_size polling tracking).1))
      "batch_1" = None
  ∧ odict.get (active_batches (state (get_current_queue_size polling tracking).1))
      "batch_2" = Some (record 20).
Proof.
  destruct (refresh_total polling tracking "batch_1" (record 10) ok_tracking eq_refl)
    as [Htotal Hrec].
  destruct (refresh_total polling tracking "batch_2" (record 20) ok_tracking eq_refl)
    as [_ Hrec2].
  split_and!.
  - exact Htotal.
  - apply Hrec. apply (bool_decide_unpack _). vm_compute. exact I.
  - apply Hrec2.
Defined.

(** C4 as it is written fails: the first file cannot be read and the second
    does not fit, so the batch is empty, and the cursor went from -1 to 0. *)
Lemma empty_build_moves_cursor :
  ∃ s, (submit_new_batch env down 1 unreadable_first).2 = Some s
       ∧ files_for_batch s = []
       ∧ last_file_submitted_index (state unreadable_first) = -1
       ∧ last_file_submitted_index
           (state (submit_new_batch env down 1 unreadable_first).1) = 0.
Proof. eexists. vm_compute. split_and!; reflexivity. Defined.

Lemma empty_build_cursor_witness :
  last_file_submitted_index (state (submit_new_batch env down 1 unreadable_first).1)
  = last_file_submitted_index (state unreadable_first) + 1
  ∧ STATE_FILE (submit_new_batch env down 1 unreadable_first).1
    = state (submit_new_batch env down 1 unreadable_first).1.
Proof.
  edestruct (empty_build_cursor env down 1 unreadable_first
               (submit_new_batch env down 1 unreadable_first).1)
    as (Hcur & _ & Hsaved).
  - exact valid_cursor_unreadable_first.
  - vm_compute. reflexivity.
  - reflexivity.
  - split; [exact Hcur|exact Hsaved].
Defined.

(** The second file cannot be read; a pass with room for one file reaches
    it. *)
Lemma skip_on_error_witness :
  1 <= last_file_submitted_index (state (submit_new_batch env down 50 manager).1)
  ∧ ∀ acts s' fd request_tokens,
      s' ∈ (perform_all acts (submit_new_batch env down 50 manager).1).2 →
      Packed 1 fd request_tokens ∉ events s'.
Proof.
  pose proof (λ s, skip_on_error env down 50 manager
                (submit_new_batch env down 50 manager).1 s 1 "docs/b.txt"
                valid_cursor_manager) as Hskip.
  edestruct Hskip as (Hle & _ & _ & _ & Hlater).
  - vm_compute. reflexivity.
  - reflexivity.
  - reflexivity.
  - apply (bool_decide_unpack _). vm_compute. exact I.
  - split; [exact Hle|exact Hlater].
Defined.

(** C6 as it is written fails: the first file is packed, the second cannot
    be read, the third does not fit, and the submission raises.  The last
    file that was packed has index 0 and the cursor is 1. *)
Lemma failed_submission_skips_ahead :
  ∃ s, (submit_new_batch env down 50 manager).2 = Some s
       ∧ files_for_batch s ≠ []
       ∧ submit down (files_for_batch s) = None
       ∧ last_file_submitted_index (state manager) = -1
       ∧ last_packed_index (events s) = Some 0
       ∧ last_file_submitted_index (state (submit_new_batch env down 50 manager).1) = 1.
Proof. eexists. vm_compute. split_and!; (reflexivity || discriminate). Defined.

Lemma failed_submission_cursor_witness :
  last_file_submitted_index (state manager)
    < last_file_submitted_index (state (submit_new_batch env down 50 manager).1)
  ∧ STATE_FILE (submit_new_batch env down 50 manager).1 = STATE_FILE manager.
Proof.
  edestruct (failed_submission_cursor env down 50 manager
               (submit_new_batch env down 50 manager).1)
    as (_ & Hlt & _ & _ & _ & Hfile).
  - exact valid_cursor_manager.
  - vm_compute. reflexivity.
  - discriminate.
  - reflexivity.
  - split; [exact Hlt|exact Hfile].
Defined.

(** The first batch is completed and its download raises: the run marks it
    and merges nothing, and the next run, for which the download would
    work, does not ask for it. *)
Lemma failed_download_is_marked_witness :
  let f1 := (run parse_line polling "2024-01-01 00:00:00 UTC"
               (Some (state tracking)) nothing).1 in
  "batch_1" ∈ processed_batch_ids f1
  ∧ stored f1 "a.txt" = None
  ∧ (run parse_line recovered "2024-01-02 00:00:00 UTC"
       (Some (state tracking)) f1).2
    = [Retrieve "batch_2"; Retrieve "batch_3"]
  ∧ stored (run parse_line recovered "2024-01-02 00:00:00 UTC"
              (Some (state tracking)) f1).1 "a.txt" = None.
Proof.
  edestruct (failed_download_is_marked parse_line polling
               "2024-01-01 00:00:00 UTC" (Some (state tracking)) nothing
               {| id := "batch_1"; status := "completed";
                  output_file_id := Some "out_1" |} "out_1")
    as (_ & Hmarked & _).
  - vm_compute. left.
  - reflexivity.
  - reflexivity.
  - split_and!; [exact Hmarked|vm_compute; reflexivity..].
Defined.

(** Two runs in a row on the service where everything is completed. *)
Lemma reconcile_idempotent_witness :
  let f1 := (run parse_line finished "2024-01-01 00:00:00 UTC"
               (Some (state tracking)) nothing).1 in
  (run parse_line finished "2024-01-02 00:00:00 UTC" (Some (state tracking)) f1).1
  = f1.
Proof.
  exact (proj2 (proj2 (reconcile_idempotent parse_line finished
           "2024-01-01 00:00:00 UTC" "2024-01-02 00:00:00 UTC"
           (Some (state tracking)) nothing))).
Defined.

(** The first and the second batch both carry a result for [a.txt]; the
    third has no output to download. *)
Lemma last_writer_wins_witness :
  stored (run parse_line finished "2024-01-01 00:00:00 UTC"
            (Some (state tracking)) nothing).1 "a.txt" = Some "second".
Proof.
  edestruct (last_writer_wins parse_line finished "2024-01-01 00:00:00 UTC"
               (Some (state tracking)) nothing
               [{| id := "batch_1"; status := "completed";
                   output_file_id := Some "out_batch_1" |}]
               {| id := "batch_2"; status := "completed";
                  output_file_id := Some "out_batch_2" |}
               [{| id := "batch_3"; status := "completed";
                   output_file_id := Some "out_batch_3" |}]
               "a.txt" "second")
    as (Hlast & _).
  - vm_compute. reflexivity.
  - vm_compute. reflexivity.
  - intros b ->%list_elem_of_singleton. vm_compute. reflexivity.
  - exact Hlast.
Defined.

(** The refresh sees the first batch completed and drops it; the run of
    the retrieval script that follows asks for the other two only. *)
Lemma terminal_batch_never_reconciled_witness :
  ("batch_1" ∉ odict.keys (active_batches (STATE_FILE (submitter refreshed_then_run))))
  ∧ ("batch_1" ∉ processed_batch_ids (retriever refreshed_then_run))
  ∧ ∀ ev, ev ∈ log refreshed_then_run → event_batch ev ≠ "batch_1".
Proof.
  edestruct (terminal_batch_never_reconciled parse_line polling tracking
               "batch_1" (record 10)
               {| id := "batch_1"; status := "completed";
                  output_file_id := Some "out_1" |}
               nothing refreshed_then_run)
    as (Hfile & Hproc & Hlog & _).
  - exact ok_tracking.
  - reflexivity.
  - reflexivity.
  - apply (bool_decide_unpack _). vm_compute. exact I.
  - apply (bool_decide_unpack _). vm_compute. exact I.
  - eapply rtc_l; [|apply rtc_refl].
    apply (step_reconcile parse_line "batch_1" recovered "2024-01-01 00:00:00 UTC").
  - split_and!; [exact Hfile|exact Hproc|exact Hlog].
Defined.

End examples.

(** ** Properties of the catalog *)

Section catalog.
Import Itemizer Calls Catalog.

Lemma string_length_app (x y : string) :
  String.length (x +:+ y) = (String.length x + String.length y)%nat.
Proof. induction x as [|a x IH]; simpl; [done|]. by rewrite IH. Qed.

Lemma substring_all (x : string) : String.substring 0 (String.length x) x = x.
Proof. induction x as [|a x IH]; simpl; [done|]. by rewrite IH. Qed.

Lemma substring_app_l (x y : string) :
  String.substring 0 (String.length x) (x +:+ y) = x.
Proof.
  induction x as [|a x IH]; simpl.
  - by destruct y.
  - by rewrite IH.
Qed.

Lemma substring_app_r (x y : string) :
  String.substring (String.length x) (String.length y) (x +:+ y) = y.
Proof. induction x as [|a x IH]; simpl; [apply substring_all|done]. Qed.

Lemma substring_split (n : nat) (s : string) :
  (n ≤ String.length s)%nat →
  s = String.substring 0 n s +:+ String.substring n (String.length s - n) s.
Proof.
  revert n. induction s as [|a s IH]; intros n Hn; simpl in *.
  - by destruct n.
  - destruct n as [|n]; simpl.
    + by rewrite substring_all.
    + change (String a s = String a (String.substring 0 n s
                 +:+ String.substring n (String.length s - n) s)).
      f_equal. apply IH. lia.
Qed.

Lemma drop_last_app (x suffix : string) :
  drop_last (String.length suffix) (x +:+ suffix) = x.
Proof.
  unfold drop_last. rewrite string_length_app.
  replace (String.length x + String.length suffix - String.length suffix)%nat
    with (String.length x) by lia.
  apply substring_app_l.
Qed.

Lemma endswith_app (x suffix : string) : endswith (x +:+ suffix) suffix = true.
Proof.
  unfold endswith. rewrite string_length_app.
  replace (String.length x + String.length suffix - String.length suffix)%nat
    with (String.length x) by lia.
  rewrite substring_app_r.
  rewrite !bool_decide_eq_true_2; [done|done|lia].
Qed.

Lemma endswith_inv (s suffix : string) :
  endswith s suffix = true → s = drop_last (String.length suffix) s +:+ suffix.
Proof.
  unfold endswith, drop_last.
  intros [Hlen Hsub]%andb_true_iff.
  apply bool_decide_eq_true in Hlen, Hsub.
  rewrite (substring_split (String.length s - String.length suffix) s) at 1 by lia.
  f_equal.
  replace (String.length s - (String.length s - String.length suffix))%nat
    with (String.length suffix) by lia.
  done.
Qed.

Lemma name_no_ext_txt (stem : string) : name_no_ext (stem +:+ ".txt") = stem.
Proof.
  unfold name_no_ext. rewrite endswith_app.
  apply (drop_last_app stem ".txt").
Qed.

(** The stems of the result files. *)
Lemma skip_basenames_spec basename result_files stem :
  stem ∈ skip_basenames basename result_files
  ↔ ∃ rf, rf ∈ result_files ∧ basename rf = stem +:+ "_original.txt".
Proof.
  unfold skip_basenames. rewrite elem_of_list_to_set, list_elem_of_omap.
  split.
  - intros (rf & Hin & Hrf). exists rf. split; [done|].
    simpl in Hrf.
    destruct (endswith (basename rf) "_original.txt") eqn:Hends; [|done].
    injection Hrf as <-. exact (endswith_inv _ "_original.txt" Hends).
  - intros (rf & Hin & Hrf). exists rf. split; [done|].
    simpl. rewrite Hrf, endswith_app. f_equal.
    apply (drop_last_app stem "_original.txt").
Qed.

(** X1. The files the script will submit: a source file [stem.txt] is
    selected exactly when no result file is named [stem_original.txt]; the
    selected files keep the order of the directory listing, and with the
    configured limit of 0 none of them is cut off. *)
Theorem files_to_process_selects basename shuffle result_files all_files f stem :
  basename f = stem +:+ ".txt" →
  (f ∈ files_to_process basename shuffle result_files all_files
   ↔ f ∈ all_files
     ∧ ∀ rf, rf ∈ result_files → basename rf ≠ stem +:+ "_original.txt")
  ∧ files_to_process basename shuffle result_files all_files `sublist_of` all_files.
Proof.
  intros Hbase.
  assert (files_to_process basename shuffle result_files all_files
          = filter (λ f, name_no_ext (basename f)
                         ∉ skip_basenames basename result_files) all_files) as ->.
  { done. }
  split; [|apply sublist_filter].
  rewrite list_elem_of_filter, Hbase, name_no_ext_txt, skip_basenames_spec.
  split.
  - intros [Hnot Hin]. split; [done|]. intros rf Hrf Heq. apply Hnot. eauto.
  - intros [Hin Hnone]. split; [|done]. intros (rf & Hrf & Heq). by eapply Hnone.
Qed.

End catalog.

(** ** More on the passes of the builder *)

Section passes.
Import Itemizer Calls Catalog.

Lemma pass_indices e files i evs :
  pass e files i evs → event_index <$> evs = seqZ i (Z.of_nat (length evs)).
Proof.
  induction 1 as [i|p rest i fd rt evs Hp Hpass IH|p rest i evs Hp Hpass IH|p rest i Hp].
  - done.
  - cbn [length fmap list_fmap event_index]. rewrite seqZ_cons by lia.
    rewrite IH. f_equal. f_equal; lia.
  - cbn [length fmap list_fmap event_index]. rewrite seqZ_cons by lia.
    rewrite IH. f_equal. f_equal; lia.
  - done.
Qed.

Lemma pass_length e files i evs :
  pass e files i evs → (length evs ≤ length files)%nat.
Proof. induction 1; simpl; lia. Qed.

(** A pass consumes files until it ends or meets one that does not fit. *)
Lemma pass_shape e files i evs :
  pass e files i evs →
  (Forall (λ ev, consumed ev = true) evs ∧ length evs = length files)
  ∨ ∃ evs0,
      evs = evs0 ++ [Rejected (i + Z.of_nat (length evs0))]
      ∧ Forall (λ ev, consumed ev = true) evs0
      ∧ (length evs0 < length files)%nat.
Proof.
  induction 1 as [i|p rest i fd rt evs Hp Hpass IH|p rest i evs Hp Hpass IH|p rest i Hp].
  - by left.
  - destruct IH as [[Hall Hlen]|(evs0 & -> & Hall & Hlen)].
    + left. split; [by constructor|simpl; lia].
    + right. exists (Packed i fd rt :: evs0). split_and!.
      * cbn [length]. rewrite Nat2Z.inj_succ.
        replace (i + Z.succ (Z.of_nat (length evs0)))
          with (i + 1 + Z.of_nat (length evs0)) by lia.
        done.
      * by constructor.
      * simpl. lia.
  - destruct IH as [[Hall Hlen]|(evs0 & -> & Hall & Hlen)].
    + left. split; [by constructor|simpl; lia].
    + right. exists (Skipped i :: evs0). split_and!.
      * cbn [length]. rewrite Nat2Z.inj_succ.
        replace (i + Z.succ (Z.of_nat (length evs0)))
          with (i + 1 + Z.of_nat (length evs0)) by lia.
        done.
      * by constructor.
      * simpl. lia.
  - right. exists []. split_and!; [simpl; by rewrite Z.add_0_r|done|simpl; lia].
Qed.

(** The boolean of the loop tells whether every event consumed its file. *)
Lemma scan_files_exhausted e cap files i s s' exhausted :
  scan_files e cap files i s = (s', exhausted) →
  ∃ evs, events s' = events s ++ evs ∧ exhausted = forallb consumed evs.
Proof.
  revert i s. induction files as [|filepath rest IH]; intros i s Hscan.
  - injection Hscan as <- <-. exists []. by rewrite app_nil_r.
  - simpl in Hscan.
    destruct (prepare e filepath) as [[fd rt]|].
    + destruct (_ || _).
      * injection Hscan as <- <-. by exists [Rejected i].
      * apply IH in Hscan as (evs & -> & ->). simpl.
        exists (Packed i fd rt :: evs). by rewrite <-app_assoc.
    + apply IH in Hscan as (evs & -> & ->). simpl.
      exists (Skipped i :: evs). by rewrite <-app_assoc.
Qed.

Lemma scan_files_count e cap files i s s' exhausted :
  scan_files e cap files i s = (s', exhausted) →
  Z.of_nat (length (files_for_batch s)) <= MAX_FILES_PER_BATCH →
  Z.of_nat (length (files_for_batch s')) <= MAX_FILES_PER_BATCH.
Proof.
  revert i s. induction files as [|filepath rest IH]; intros i s Hscan Hcount.
  - by injection Hscan as <- <-.
  - simpl in Hscan.
    destruct (prepare e filepath) as [[fd rt]|].
    + destruct (bool_decide (_ > cap)); simpl in Hscan.
      { by injection Hscan as <- <-. }
      destruct (bool_decide (_ >= MAX_FILES_PER_BATCH)) eqn:Hfull.
      { by injection Hscan as <- <-. }
      apply bool_decide_eq_false in Hfull.
      apply IH in Hscan; [done|]. simpl. rewrite length_app. simpl. lia.
    + by apply IH in Hscan.
Qed.

(** A call that made a pass: the loop behind it, and the flag it left. *)
Lemma submit_new_batch_scan e c cap m m' s :
  submit_new_batch e c cap m = (m', Some s) →
  ∃ exhausted,
    scan_files e cap
      (drop (Z.to_nat (last_file_submitted_index (state m) + 1))
            (source_files (state m)))
      (last_file_submitted_index (state m) + 1)
      {| files_for_batch := [];
         batch_total_tokens := 0;
         last_file_index_in_batch := last_file_submitted_index (state m);
         events := [] |} = (s, exhausted)
    ∧ all_files_submitted (state m') = exhausted.
Proof.
  unfold submit_new_batch. intros Hsub.
  destruct (all_files_submitted (state m)) eqn:Hflag; [done|].
  unfold build in Hsub.
  destruct (scan_files _ _ _ _ _) as [s0 ex] eqn:Hscan.
  exists ex. rewrite Hflag in Hsub.
  destruct (files_for_batch s0).
  - injection Hsub as <- <-. split; [done|]. by destruct ex.
  - destruct (submit c _) as [[[? ?] ?]|]; injection Hsub as <- <-;
      (split; [done|by destruct ex]).
Qed.

(** X2. Within one pass the builder visits consecutive indices, starting
    right after the cursor: no file is looked at twice and none is jumped
    over, and the pass looks at no more files than the catalog has left. *)
Theorem pass_visits_consecutive e c cap m m' s :
  valid_cursor (state m) →
  submit_new_batch e c cap m = (m', Some s) →
  event_index <$> events s
  = seqZ (last_file_submitted_index (state m) + 1) (Z.of_nat (length (events s)))
  ∧ (length (events s)
     ≤ length (source_files (state m))
       - Z.to_nat (last_file_submitted_index (state m) + 1))%nat.
Proof.
  intros Hvalid Hsub.
  apply submit_new_batch_build in Hsub as (st & Hbuild & _).
  apply build_pass in Hbuild as (Hpass & _); [|done].
  split.
  - by eapply pass_indices.
  - apply pass_length in Hpass. by rewrite length_drop in Hpass.
Qed.

(** X3. A batch never holds more than [MAX_FILES_PER_BATCH] files. *)
Theorem batch_size_capped e c cap m m' s :
  submit_new_batch e c cap m = (m', Some s) →
  Z.of_nat (length (files_for_batch s)) <= MAX_FILES_PER_BATCH.
Proof.
  intros Hsub.
  apply submit_new_batch_scan in Hsub as (ex & Hscan & _).
  apply scan_files_count in Hscan; [done|].
  simpl. unfold MAX_FILES_PER_BATCH. lia.
Qed.

(** X4. How a pass ends: either it consumed the catalog to its end, and
    then the flag [all_files_submitted] is set and the cursor is the last
    index; or it stopped at a file that did not fit, and then the flag
    stays clear and that file is the one right after the cursor, the first
    the next pass will look at. *)
Theorem pass_ends e c cap m m' s :
  valid_cursor (state m) →
  last_file_submitted_index (state m) < Z.of_nat (length (source_files (state m))) →
  submit_new_batch e c cap m = (m', Some s) →
  (all_files_submitted (state m') = true
   ∧ last_file_submitted_index (state m')
     = Z.of_nat (length (source_files (state m))) - 1
   ∧ ∀ i, Rejected i ∉ events s)
  ∨ (all_files_submitted (state m') = false
     ∧ last (events s)
       = Some (Rejected (last_file_submitted_index (state m') + 1))
     ∧ last_file_submitted_index (state m') + 1
       < Z.of_nat (length (source_files (state m)))).
Proof.
  intros Hvalid Hrange Hsub.
  pose proof (submit_new_batch_scan _ _ _ _ _ _ Hsub) as (ex & Hscan & Hflag).
  apply scan_files_exhausted in Hscan as (evs & Hevs & Hex).
  simpl in Hevs. subst evs.
  apply submit_new_batch_build in Hsub as (st & Hbuild & _ & Hcur & _).
  apply build_pass in Hbuild as (Hpass & _ & Hlast & Hst & _); [|done].
  rewrite Hcur, Hst, Hlast, Hflag, Hex. clear Hcur Hst Hlast Hflag Hex.
  pose proof (pass_shape _ _ _ _ Hpass) as [[Hall Hlen]|(evs0 & Hevs & Hall & Hlen)].
  - left. rewrite length_drop in Hlen. unfold valid_cursor in Hvalid.
    assert (filter consumed (events s) = events s) as Hf.
    { clear -Hall. induction Hall as [|ev evs Hev Hall IH]; [done|].
      rewrite filter_cons_True by (by rewrite Hev). by rewrite IH. }
    rewrite Hf, Hlen. split_and!.
    + apply forallb_forall. intros ev Hin%list_elem_of_In.
      rewrite Forall_forall in Hall. by apply Hall.
    + lia.
    + intros i Hin. rewrite Forall_forall in Hall. by specialize (Hall _ Hin).
  - right. rewrite length_drop in Hlen. unfold valid_cursor in Hvalid.
    rewrite Hevs.
    assert (filter consumed (evs0 ++ [Rejected
              (last_file_submitted_index (state m) + 1 + Z.of_nat (length evs0))])
            = evs0) as Hf.
    { rewrite filter_app, filter_cons_False, filter_nil, app_nil_r by (simpl; auto).
      clear -Hall. induction Hall as [|ev evs Hev Hall IH]; [done|].
      rewrite filter_cons_True by (by rewrite Hev). by rewrite IH. }
    rewrite Hf. split_and!.
    + rewrite forallb_app. simpl. by rewrite andb_false_r.
    + rewrite last_snoc. do 2 f_equal. lia.
    + lia.
Qed.

End passes.

(** ** More on submissions and refreshes *)

Section tracking.
Import Itemizer Calls Catalog.

Lemma scan_files_total e cap files i s s' exhausted :
  scan_files e cap files i s = (s', exhausted) →
  batch_total_tokens s = batch_cost e (files_for_batch s) →
  batch_total_tokens s' = batch_cost e (files_for_batch s').
Proof.
  revert i s. induction files as [|filepath rest IH]; intros i s Hscan Hsum.
  - by injection Hscan as <- <-.
  - simpl in Hscan.
    destruct (prepare e filepath) as [[fd rt]|] eqn:Hprep.
    + destruct (_ || _).
      * by injection Hscan as <- <-.
      * apply IH in Hscan; [done|]. simpl.
        rewrite batch_cost_snoc, (prepare_cost _ _ _ _ Hprep). lia.
    + by apply IH in Hscan.
Qed.

(** X6. An accepted submission is recorded: the map holds, under the handle
    the service returned, a record with the status and the input file the
    service returned, the cost of the batch that was built and the number
    of its files; the other records are as they were; the state is saved;
    and the handle is among those the retrieval script reads from the state
    file. *)
Theorem submission_recorded e c cap m m' s uploaded_file_id batch_id st :
  submit_new_batch e c cap m = (m', Some s) →
  files_for_batch s ≠ [] →
  submit c (files_for_batch s) = Some (uploaded_file_id, batch_id, st) →
  odict.get (active_batches (state m')) batch_id
  = Some {| rstatus := st;
            submitted_at := time e;
            input_file_id := uploaded_file_id;
            total_tokens := batch_cost e (files_for_batch s);
            file_count := Z.of_nat (length (files_for_batch s)) |}
  ∧ (∀ k, k ≠ batch_id →
          odict.get (active_batches (state m')) k
          = odict.get (active_batches (state m)) k)
  ∧ STATE_FILE m' = state m'
  ∧ batch_id ∈ Retriever.batch_ids_to_check (Some (STATE_FILE m')).
Proof.
  intros Hsub Hne Hok.
  pose proof (submit_new_batch_scan _ _ _ _ _ _ Hsub) as (ex & Hscan & _).
  apply scan_files_total in Hscan; [|done].
  unfold submit_new_batch in Hsub.
  destruct (all_files_submitted (state m)); [done|].
  destruct (build e cap (state m)) as [st0 s0] eqn:Hbuild.
  assert (active_batches st0 = active_batches (state m)) as Hab.
  { unfold build in Hbuild. destruct (scan_files _ _ _ _ _).
    by injection Hbuild as <- _. }
  destruct (files_for_batch s0) as [|fd fds] eqn:Hfiles.
  { injection Hsub as _ <-. by rewrite Hfiles in Hne. }
  destruct (submit c (fd :: fds)) as [[[fid bid] bst]|] eqn:Hsubmit;
    injection Hsub as <- <-; rewrite Hfiles in Hok; [|congruence].
  rewrite Hsubmit in Hok. injection Hok as -> -> ->.
  simpl. rewrite Hab, Hscan, Hfiles.
  split_and!.
  - apply odict_get_set.
  - intros k Hk. by apply odict_get_set_ne.
  - done.
  - apply odict_keys_set. by left.
Qed.

(** X8. A tracked batch whose status is neither one of the three active
    ones nor one of the four terminal ones stays in the map, with the new
    status, and counts nothing towards the queue. *)
Theorem refresh_other_status c m batch_id r b :
  odict.ok (active_batches (state m)) →
  odict.get (active_batches (state m)) batch_id = Some r →
  batches_retrieve c batch_id = Some b →
  status b ∉ ACTIVE →
  status b ∉ TERMINAL →
  counted c (batch_id, r) = 0
  ∧ odict.get (active_batches (state (get_current_queue_size c m).1)) batch_id
    = Some (set_status r (status b)).
Proof.
  intros Hok Hget Hretr Hact Hterm.
  destruct (get_current_queue_size_spec c m Hok) as (_ & -> & _).
  rewrite (refreshed_get c _ _ _ Hok Hget).
  unfold counted, refreshed, status_in. simpl. rewrite Hretr.
  rewrite !bool_decide_eq_false_2 by done. simpl. by rewrite decide_True.
Qed.

Lemma odict_get_elem_of {V} (d : list (string * V)) k v :
  odict.get d k = Some v → (k, v) ∈ d.
Proof.
  induction d as [|[k' v'] d IH]; [done|]. simpl.
  destruct (decide (k' = k)) as [->|Hne].
  - intros [= ->]. by left.
  - intros Hget. right. by apply IH.
Qed.

Lemma odict_elem_of_get {V} (d : list (string * V)) k v :
  odict.ok d → (k, v) ∈ d → odict.get d k = Some v.
Proof.
  unfold odict.ok, odict.keys. induction d as [|[k' v'] d IH]; intros Hnd Hin.
  - by apply elem_of_nil in Hin.
  - simpl in Hnd. apply NoDup_cons in Hnd as [Hk' Hnd]. simpl.
    apply elem_of_cons in Hin as [[= -> ->]|Hin].
    + by rewrite decide_True.
    + rewrite decide_False; [by apply IH|].
      intros ->. apply Hk'. apply list_elem_of_fmap. by exists (k, v).
Qed.

Lemma refreshed_elem_of c d k r' :
  (k, r') ∈ flat_map (refreshed c) d →
  ∃ r, (k, r) ∈ d ∧ (r' = r ∨ ∃ st, r' = set_status r st).
Proof.
  induction d as [|[k1 r1] d IH]; simpl; [by intros ?%elem_of_nil|].
  intros [Hin|Hin]%elem_of_app.
  - exists r1. unfold refreshed in Hin. simpl in Hin.
    destruct (batches_retrieve c k1) as [b|];
      [destruct (status_in _ ACTIVE); [|destruct (status_in _ TERMINAL)]|];
      try (by apply elem_of_nil in Hin);
      apply list_elem_of_singleton in Hin; injection Hin as -> ->;
      (split; [by left|eauto]).
  - destruct (IH Hin) as (r & Hr & Hcase). exists r. split; [by right|done].
Qed.

Lemma refreshed_keys_sublist_all c d :
  odict.keys (flat_map (refreshed c) d) `sublist_of` odict.keys d.
Proof.
  unfold odict.keys. induction d as [|[k r] d IH]; [done|].
  cbn [flat_map fmap list_fmap]. rewrite fmap_app.
  apply (sublist_app _ [k] _ _); [|done].
  apply refreshed_keys_sublist.
Qed.

(** X9. A refresh only drops records and rewrites statuses: the keys that
    are left are keys of the map before, in the same order and still
    distinct, and a record that is left has the submission time, the input
    file, the tokens and the file count it had. *)
Theorem refresh_preserves_records c m :
  odict.ok (active_batches (state m)) →
  let ab' := active_batches (state (get_current_queue_size c m).1) in
  odict.keys ab' `sublist_of` odict.keys (active_batches (state m))
  ∧ odict.ok ab'
  ∧ ∀ k r', odict.get ab' k = Some r' →
      ∃ r, odict.get (active_batches (state m)) k = Some r
           ∧ submitted_at r' = submitted_at r
           ∧ input_file_id r' = input_file_id r
           ∧ total_tokens r' = total_tokens r
           ∧ file_count r' = file_count r.
Proof.
  intros Hok ab'. subst ab'.
  destruct (get_current_queue_size_spec c m Hok) as (_ & -> & _).
  pose proof (refreshed_keys_sublist_all c (active_batches (state m))) as Hsub.
  split_and!; [done|by eapply sublist_NoDup|].
  intros k r' Hget.
  apply odict_get_elem_of, refreshed_elem_of in Hget as (r & Hin & Hcase).
  exists r. split; [by apply odict_elem_of_get|].
  by destruct Hcase as [->|[st ->]].
Qed.

End tracking.

(** ** More on the retrieval script *)

Section more_retrieval.
Import Retriever Pipeline Lines.
Context {payload : Type} (parse_line : string → line_result payload).

Lemma check_batches_order c P ids :
  id <$> (check_batches c P ids).1 `sublist_of` ids.
Proof.
  induction ids as [|k ids IH]; [done|]. simpl.
  destruct (check_batches c P ids) as [bs evs]. simpl in IH.
  destruct (bool_decide (k ∈ P)); [by apply sublist_cons|].
  destruct (batches_retrieve c k) as [batch|] eqn:Hretr; [|by apply sublist_cons].
  destruct (bool_decide (status batch = "completed")); [|by apply sublist_cons].
  simpl. rewrite (batches_retrieve_id _ _ _ Hretr). by apply sublist_skip.
Qed.

(** X10. The batches that [get_new_completed_batches] returns are exactly
    the keys of the map in the state file that are not processed yet and
    that the service reports as completed, in the order of the map.  A
    handle whose query raises, or whose status is anything else, is left
    out. *)
Theorem new_completed_batches_exact c P submission_state b :
  (b ∈ (get_new_completed_batches c P submission_state).1
   ↔ id b ∈ batch_ids_to_check submission_state
     ∧ (id b ∉ P)
     ∧ batches_retrieve c (id b) = Some b
     ∧ status b = "completed")
  ∧ id <$> (get_new_completed_batches c P submission_state).1
    `sublist_of` batch_ids_to_check submission_state.
Proof.
  unfold get_new_completed_batches. split; [|apply check_batches_order].
  split.
  - intros Hin. apply check_batches_sound in Hin as (? & ? & ? & ?). done.
  - intros (Hk & HP & Hretr & Hst). by eapply check_batches_complete.
Qed.

(** The loop over the lines, when no line raises past the inner handler. *)
Lemma parse_lines_last result_lines acc res k :
  parse_lines parse_line result_lines acc = Some res →
  res !! k = match last_entry parse_line result_lines k with
             | Some p => Some p
             | None => acc !! k
             end.
Proof.
  revert acc. induction result_lines as [|line rest IH]; intros acc Hparse.
  - by injection Hparse as <-.
  - unfold last_entry in *. cbn [omap list_omap]. unfold entry at 1.
    simpl in Hparse.
    destruct (parse_line line) as [custom_id final_data| |]; [| |done].
    + rewrite (IH _ Hparse).
      destruct (decide (custom_id = k)) as [->|Hne].
      * rewrite last_cons. destruct (last _); [done|]. by rewrite lookup_insert_eq.
      * destruct (last _); [done|]. by rewrite lookup_insert_ne.
    + by rewrite (IH _ Hparse).
Qed.

Lemma parse_lines_total result_lines acc :
  (∀ line, line ∈ result_lines → crashes parse_line line = false) →
  is_Some (parse_lines parse_line result_lines acc).
Proof.
  revert acc. induction result_lines as [|line rest IH]; intros acc Hno; [by eexists|].
  simpl. pose proof (Hno line ltac:(by left)) as Hline. unfold crashes in Hline.
  destruct (parse_line line); [| |done]; apply IH; intros l Hl; apply Hno; by right.
Qed.

Lemma parse_lines_crash result_lines acc line :
  line ∈ result_lines → crashes parse_line line = true →
  parse_lines parse_line result_lines acc = None.
Proof.
  revert acc. induction result_lines as [|l rest IH]; intros acc Hin Hcrash.
  - by apply elem_of_nil in Hin.
  - simpl. apply elem_of_cons in Hin as [<-|Hin].
    + unfold crashes in Hcrash. by destruct (parse_line line).
    + destruct (parse_line l); [by apply IH|by apply IH|done].
Qed.

(** X11. Within one output file the last line wins: when no line raises
    past the inner handler, the result of the batch holds, for every
    identity, the payload of the last line that stores an entry for it, and
    nothing for an identity no line stores; lines that are dropped do not
    disturb the others. *)
Theorem batch_results_last_line_wins c b file_id result_lines k :
  output_file_id b = Some file_id →
  file_id ≠ "" →
  download c file_id = Some result_lines →
  (∀ line, line ∈ result_lines → crashes parse_line line = false) →
  (process_batch_result parse_line c b).1 !! k
  = last_entry parse_line result_lines k.
Proof.
  intros Hout Hne Hdown Hno. unfold process_batch_result.
  rewrite Hout, bool_decide_eq_false_2, Hdown by done. simpl.
  destruct (parse_lines_total result_lines ∅ Hno) as [res Hres].
  rewrite Hres. simpl. rewrite (parse_lines_last _ _ _ k Hres).
  destruct (last_entry _ _ _); [done|]. by rewrite lookup_empty.
Qed.

(** X12. One line that raises past the inner handler costs the whole
    batch: the result of the batch is empty, also for the lines before and
    after it, and the run marks the batch as processed all the same. *)
Theorem crashed_line_discards_batch c timestamp submission_state f b file_id
    result_lines line :
  b ∈ (get_new_completed_batches c (processed_batch_ids f) submission_state).1 →
  output_file_id b = Some file_id →
  download c file_id = Some result_lines →
  line ∈ result_lines →
  crashes parse_line line = true →
  (process_batch_result parse_line c b).1 = ∅
  ∧ id b ∈ processed_batch_ids (run parse_line c timestamp submission_state f).1.
Proof.
  intros Hb Hout Hdown Hin Hcrash. split.
  - unfold process_batch_result. rewrite Hout.
    destruct (bool_decide (file_id = "")); [done|].
    rewrite Hdown. simpl. by rewrite (parse_lines_crash _ _ _ Hin Hcrash).
  - destruct (run_spec parse_line c timestamp submission_state f) as (-> & _).
    apply elem_of_union. left. apply elem_of_list_to_set, list_elem_of_fmap.
    by exists b.
Qed.

(** X13. What a run marks: after it the processed set holds what it held
    before and, besides, exactly the keys of the map in the state file that
    the service reports as completed, whether or not their output could be
    downloaded and parsed. *)
Theorem run_marks_exactly_new c timestamp submission_state f k :
  k ∈ processed_batch_ids (run parse_line c timestamp submission_state f).1
  ↔ k ∈ processed_batch_ids f
    ∨ (k ∈ batch_ids_to_check submission_state
       ∧ ∃ b, batches_retrieve c k = Some b ∧ status b = "completed").
Proof.
  destruct (run_spec parse_line c timestamp submission_state f) as (-> & _).
  rewrite elem_of_union, elem_of_list_to_set, list_elem_of_fmap. split.
  - intros [(b & -> & Hb)|HP]; [|by left].
    apply check_batches_sound in Hb as (Hk & _ & Hretr & Hst). right. eauto.
  - intros [HP|(Hk & b & Hretr & Hst)]; [by right|].
    destruct (decide (k ∈ processed_batch_ids f)) as [HP|HP]; [by right|].
    left. exists b. split; [by rewrite (batches_retrieve_id _ _ _ Hretr)|].
    by eapply check_batches_complete.
Qed.


(** X15. A completed batch without an output file is marked as processed
    without any download, and adds nothing to the results. *)
Theorem no_output_file_marked c timestamp submission_state f b :
  b ∈ (get_new_completed_batches c (processed_batch_ids f) submission_state).1 →
  output_file_id b = None →
  (process_batch_result parse_line c b).1 = ∅
  ∧ id b ∈ processed_batch_ids (run parse_line c timestamp submission_state f).1
  ∧ ∀ file_id,
      Download (id b) file_id
      ∉ (run parse_line c timestamp submission_state f).2.
Proof.
  intros Hb Hout. split_and!.
  - unfold process_batch_result. by rewrite Hout.
  - destruct (run_spec parse_line c timestamp submission_state f) as (-> & _).
    apply elem_of_union. left. apply elem_of_list_to_set, list_elem_of_fmap.
    by exists b.
  - intros file_id Hin. unfold run in Hin.
    destruct (get_new_completed_batches _ _ _) as [nb evs] eqn:Hnew.
    simpl in Hb.
    assert (∀ ev, ev ∈ evs → ∃ k, ev = Retrieve k) as Hevs.
    { intros ev Hev.
      pose proof (check_batches_events c (processed_batch_ids f)
                    (batch_ids_to_check submission_state) ev) as Hq.
      unfold get_new_completed_batches in Hnew. rewrite Hnew in Hq.
      destruct (Hq Hev) as (k & -> & _). eauto. }
    assert (∀ b', b' ∈ nb → id b' = id b → b' = b) as Huniq.
    { intros b' Hb' Hid.
      pose proof (check_batches_sound c (processed_batch_ids f)
                    (batch_ids_to_check submission_state) b') as Hs1.
      pose proof (check_batches_sound c (processed_batch_ids f)
                    (batch_ids_to_check submission_state) b) as Hs2.
      unfold get_new_completed_batches in Hnew. rewrite Hnew in Hs1, Hs2.
      destruct (Hs1 Hb') as (_ & _ & _ & Hr1).
      destruct (Hs2 Hb) as (_ & _ & _ & Hr2).
      rewrite Hid, Hr2 in Hr1. by injection Hr1. }
    assert (Download (id b) file_id
            ∈ evs ++ flat_map (λ b, (process_batch_result parse_line c b).2
                                     ++ [Update (id b)]) nb) as Hin'.
    { destruct nb as [|b0 nb0] eqn:Hnb; [by apply elem_of_nil in Hb|].
      rewrite <-Hnb in *. rewrite run_step_fold in Hin.
      by destruct (bool_decide _). }
    apply elem_of_app in Hin' as [Hq|Hd].
    + by destruct (Hevs _ Hq) as (k & ?).
    + apply list_elem_of_In, in_flat_map in Hd as (b' & Hb' & Hd).
      apply list_elem_of_In in Hb', Hd.
      apply elem_of_app in Hd as [Hd|Hd%list_elem_of_singleton]; [|done].
      pose proof (process_batch_result_events parse_line c b' _ Hd) as Hid.
      simpl in Hid. symmetry in Hid. apply (Huniq _ Hb') in Hid. subst b'.
      unfold process_batch_result in Hd. rewrite Hout in Hd.
      by apply elem_of_nil in Hd.
Qed.

End more_retrieval.

(** ** The loop of the submission script *)

Section loop.
Import Itemizer Calls Catalog.

Lemma prepare_nonneg e filepath fd request_tokens :
  prepare e filepath = Some (fd, request_tokens) → 0 <= request_tokens.
Proof.
  unfold prepare. intros H.
  destruct (open_readlines e filepath) as [lines|]; [|done].
  destruct (encode e (prefixed_content e lines)) as [toks|]; [|done].
  injection H as _ <-. lia.
Qed.

Lemma terminal_not_active st : st ∈ TERMINAL → status_in st ACTIVE = false.
Proof.
  intros Hterm. apply bool_decide_eq_false. intros Hact. revert Hact Hterm.
  unfold ACTIVE, TERMINAL. rewrite !elem_of_cons, !elem_of_nil.
  intros [->|[->|[->|[]]]] [?|[?|[?|[?|[]]]]]; done.
Qed.

Lemma pass_nonempty e filepath rest i evs :
  pass e (filepath :: rest) i evs →
  ∃ ev evs', evs = ev :: evs' ∧ event_index ev = i.
Proof. inversion 1; subst; eauto. Qed.

(** A call makes a pass unless everything is submitted already. *)
Lemma submit_new_batch_passes e c cap m :
  all_files_submitted (state m) = false →
  ∃ m' s, submit_new_batch e c cap m = (m', Some s).
Proof.
  intros Hflag. unfold submit_new_batch. rewrite Hflag.
  destruct (build e cap (state m)) as [st s].
  destruct (files_for_batch s); [by eauto|].
  destruct (submit c _) as [[[? ?] ?]|]; eauto.
Qed.

(** X16. Starting the script again forgets the cursor: whatever the state
    file held, the cursor is -1 and the flag is clear, the tracked batches
    are the ones of the state file, and the first pass of the builder looks
    at the selected files from index 0 on. *)
Theorem restart_rescans basename shuffle result_files all_files file e c cap :
  let m := start basename shuffle result_files all_files file in
  last_file_submitted_index (state m) = -1
  ∧ all_files_submitted (state m) = false
  ∧ source_files (state m) = files_to_process basename shuffle result_files all_files
  ∧ active_batches (state m) = active_batches (_load_state file)
  ∧ STATE_FILE m = state m
  ∧ ∃ s, (submit_new_batch e c cap m).2 = Some s
         ∧ event_index <$> events s = seqZ 0 (Z.of_nat (length (events s)))
         ∧ (files_to_process basename shuffle result_files all_files ≠ [] →
            ∃ ev, head (events s) = Some ev ∧ event_index ev = 0).
Proof.
  intros m. split_and!; [reflexivity..|].
  destruct (submit_new_batch_passes e c cap m eq_refl) as (m' & s & Hsub).
  rewrite Hsub. exists s. split; [done|].
  pose proof Hsub as Hbuild.
  apply submit_new_batch_build in Hbuild as (st & Hbuild & _).
  apply build_pass in Hbuild as (Hpass & _); [|by unfold valid_cursor].
  split; [by apply (pass_indices _ _ _ _ Hpass)|].
  intros Hne. simpl in Hpass.
  destruct (files_to_process _ _ _ _) as [|p rest]; [done|].
  apply pass_nonempty in Hpass as (ev & evs' & -> & Hidx). by exists ev.
Qed.

(** *** A catalog that fits into one batch *)

Lemma catalog_cost_cons e filepath rest fd request_tokens :
  prepare e filepath = Some (fd, request_tokens) →
  catalog_cost e (filepath :: rest) = request_tokens + catalog_cost e rest.
Proof. intros Hp. unfold catalog_cost, file_cost. simpl. by rewrite Hp. Qed.

Lemma catalog_cost_nonneg e files : 0 <= catalog_cost e files.
Proof.
  induction files as [|p rest IH]; [done|].
  unfold catalog_cost in *. cbn [omap list_omap]. unfold file_cost at 1.
  destruct (prepare e p) as [[fd rt]|] eqn:Hp; [|done].
  apply prepare_nonneg in Hp. unfold sum_Z in *. cbn [foldr]. lia.
Qed.

(** When every file can be prepared and everything fits, the loop packs
    every file. *)
Lemma scan_files_all e cap files i s :
  (∀ p, p ∈ files → is_Some (prepare e p)) →
  batch_total_tokens s + catalog_cost e files <= cap →
  Z.of_nat (length (files_for_batch s)) + Z.of_nat (length files)
    <= MAX_FILES_PER_BATCH →
  last_file_index_in_batch s = i - 1 →
  ∃ s', scan_files e cap files i s = (s', true)
        ∧ length (files_for_batch s')
          = (length (files_for_batch s) + length files)%nat
        ∧ last_file_index_in_batch s' = i - 1 + Z.of_nat (length files).
Proof.
  revert i s. induction files as [|p rest IH]; intros i s Hall Hcost Hcount Hlast.
  - exists s. simpl. split_and!; [done|lia|lia].
  - destruct (Hall p ltac:(by left)) as [[fd rt] Hp].
    rewrite (catalog_cost_cons _ _ _ _ _ Hp) in Hcost.
    pose proof (catalog_cost_nonneg e rest) as Hrest.
    simpl. rewrite Hp.
    rewrite bool_decide_eq_false_2 by lia.
    rewrite bool_decide_eq_false_2 by (simpl in Hcount; lia).
    simpl.
    edestruct (IH (i + 1)) as (s' & Hscan & Hlen & Hidx); last first.
    + exists s'. split; [exact Hscan|]. simpl in Hlen, Hidx.
      rewrite length_app in Hlen. simpl in Hlen. split; [lia|]. simpl. lia.
    + simpl. lia.
    + simpl. rewrite length_app. simpl. simpl in Hcount. lia.
    + simpl. lia.
    + intros q Hq. apply Hall. by right.
Qed.

(** X7. The loop ends: from a fresh start with no batch in flight, when
    every file of the catalog can be prepared, the catalog fits into the
    queue limit and into one batch, the service accepts the batch at the
    first turn and reports it in a terminal status at the second, the loop
    leaves at the second turn at the latest, with the cursor on the last
    file, the flag set and no batch tracked. *)
Theorem run_terminates e1 c1 e2 c2 m uploaded_file_id batch_id st st2 out :
  last_file_submitted_index (state m) = -1 →
  all_files_submitted (state m) = false →
  active_batches (state m) = [] →
  (∀ p, p ∈ source_files (state m) → is_Some (prepare e1 p)) →
  catalog_cost e1 (source_files (state m)) <= QUEUE_LIMIT_TOKENS →
  Z.of_nat (length (source_files (state m))) <= MAX_FILES_PER_BATCH →
  (∀ files, submit c1 files = Some (uploaded_file_id, batch_id, st)) →
  retrieve c2 batch_id = Some (st2, out) →
  st2 ∈ TERMINAL →
  ∃ m', run [(e1, c1); (e2, c2)] m = (m', true)
        ∧ last_file_submitted_index (state m')
          = Z.of_nat (length (source_files (state m))) - 1
        ∧ all_files_submitted (state m') = true
        ∧ active_batches (state m') = [].
Proof.
  intros Hcur Hflag Hab Hall Hcost Hcount Hsubmit Hretr Hterm.
  destruct (scan_files_all e1 QUEUE_LIMIT_TOKENS (source_files (state m)) 0
              {| files_for_batch := [];
                 batch_total_tokens := 0;
                 last_file_index_in_batch := -1;
                 events := [] |})
    as (s & Hscan & Hlen & Hidx); [done|simpl; lia|simpl; lia|done|].
  simpl in Hlen, Hidx.
  assert (submit_new_batch e1 c1 QUEUE_LIMIT_TOKENS m
          = (match files_for_batch s with
             | [] => _save_state
                 {| state := {| last_file_submitted_index := last_file_index_in_batch s;
                                active_batches := [];
                                source_files := source_files (state m);
                                all_files_submitted := true |};
                    STATE_FILE := STATE_FILE m |}
             | _ :: _ => _save_state
                 {| state := {| last_file_submitted_index := last_file_index_in_batch s;
                                active_batches :=
                                  [(batch_id,
                                    {| rstatus := st;
                                       submitted_at := time e1;
                                       input_file_id := uploaded_file_id;
                                       total_tokens := batch_total_tokens s;
                                       file_count := Z.of_nat (length (files_for_batch s)) |})];
                                source_files := source_files (state m);
                                all_files_submitted := true |};
                    STATE_FILE := STATE_FILE m |}
             end, Some s)) as Hsub.
  { unfold submit_new_batch, build. rewrite Hflag, Hcur, Hab.
    change (-1 + 1) with 0. change (Z.to_nat 0) with 0%nat. rewrite drop_0.
    rewrite Hscan. destruct (files_for_batch s); [done|]. by rewrite Hsubmit. }
  unfold run, run_iteration, get_current_queue_size. rewrite Hab.
  change (QUEUE_LIMIT_TOKENS - 0) with QUEUE_LIMIT_TOKENS.
  rewrite (bool_decide_eq_true_2 (QUEUE_LIMIT_TOKENS > 0)) by done.
  rewrite Hsub. cbn [fst].
  destruct (files_for_batch s) as [|fd fds] eqn:Hfiles.
  - eexists. simpl. split_and!; [done| |done|done]. simpl. lia.
  - cbn [_save_state state active_batches all_files_submitted andb].
    rewrite bool_decide_eq_false_2 by done.
    cbn [odict.keys fmap list_fmap fst foldl set_active_batches].
    unfold refresh_step. cbn [odict.get]. rewrite decide_True by done.
    unfold batches_retrieve. rewrite Hretr. cbn [status odict.set].
    rewrite decide_True by done.
    rewrite (terminal_not_active _ Hterm).
    unfold status_in at 1. rewrite (bool_decide_eq_true_2 _ Hterm).
    unfold odict.del. rewrite filter_cons_False, filter_nil by (simpl; auto).
    cbn [_save_state state active_batches all_files_submitted
         last_file_submitted_index source_files].
    change (QUEUE_LIMIT_TOKENS - 0) with QUEUE_LIMIT_TOKENS.
    rewrite (bool_decide_eq_true_2 (QUEUE_LIMIT_TOKENS > 0)) by done.
    unfold submit_new_batch.
    cbn [state all_files_submitted fst active_batches last_file_submitted_index andb].
    rewrite bool_decide_eq_true_2 by done.
    eexists. split_and!; [done| |done|done]. simpl. lia.
Qed.

(** *** A file that is larger than the queue *)

Lemma tokens_ok_set ab k r :
  tokens_ok ab → 0 <= total_tokens r → tokens_ok (odict.set ab k r).
Proof.
  unfold tokens_ok. intros Hok Hr.
  induction ab as [|[k' r'] ab IH]; simpl.
  - by repeat constructor.
  - apply Forall_cons in Hok as [Hr' Hok].
    destruct (decide (k' = k)); constructor; auto.
Qed.

Lemma tokens_ok_get ab k r :
  tokens_ok ab → odict.get ab k = Some r → 0 <= total_tokens r.
Proof.
  unfold tokens_ok. intros Hok Hget%odict_get_elem_of.
  rewrite Forall_forall in Hok. by apply (Hok (k, r)).
Qed.

Lemma refresh_step_tokens c acc k :
  0 <= acc.1 → tokens_ok acc.2 →
  0 <= (refresh_step c acc k).1 ∧ tokens_ok (refresh_step c acc k).2.
Proof.
  destruct acc as [t ab]. simpl. intros Ht Hok. unfold refresh_step.
  destruct (odict.get ab k) as [r|] eqn:Hget; [|done].
  pose proof (tokens_ok_get _ _ _ Hok Hget) as Hr.
  destruct (batches_retrieve c k) as [b|]; [|simpl; split; [lia|done]].
  assert (tokens_ok (odict.set ab k (set_status r (status b)))) as Hset
    by (by apply tokens_ok_set).
  destruct (status_in (status b) ACTIVE); simpl; [split; [lia|done]|].
  destruct (status_in (status b) TERMINAL); simpl; [|done].
  split; [done|]. unfold tokens_ok, odict.del in *.
  apply Forall_forall. intros x [_ Hx]%list_elem_of_filter.
  rewrite Forall_forall in Hset. by apply Hset.
Qed.

Lemma refresh_fold_tokens c acc ks :
  0 <= acc.1 → tokens_ok acc.2 →
  0 <= (foldl (refresh_step c) acc ks).1
  ∧ tokens_ok (foldl (refresh_step c) acc ks).2.
Proof.
  revert acc. induction ks as [|k ks IH]; intros acc Ht Hok; [done|].
  cbn [foldl]. destruct (refresh_step_tokens c acc k Ht Hok). by apply IH.
Qed.

Lemma get_current_queue_size_tokens c m :
  tokens_ok (active_batches (state m)) →
  0 <= (get_current_queue_size c m).2
  ∧ tokens_ok (active_batches (state (get_current_queue_size c m).1))
  ∧ all_files_submitted (state (get_current_queue_size c m).1)
    = all_files_submitted (state m).
Proof.
  intros Hok. unfold get_current_queue_size.
  destruct (active_batches (state m)) as [|entry d] eqn:Hab.
  - simpl. by rewrite Hab.
  - rewrite <-Hab in *.
    pose proof (refresh_fold_tokens c (0, active_batches (state m))
                  (odict.keys (active_batches (state m)))) as Hfold.
    destruct (foldl _ _ _) as [total ab]. simpl in *.
    destruct Hfold as [? ?]; done.
Qed.

(** The loop does not get past a file that costs more than the capacity. *)
Lemma scan_files_stall e cap files i s s' exhausted n filepath fd request_tokens :
  scan_files e cap files i s = (s', exhausted) →
  files !! n = Some filepath →
  prepare e filepath = Some (fd, request_tokens) →
  cap < request_tokens →
  0 <= batch_total_tokens s →
  last_file_index_in_batch s < i + Z.of_nat n →
  last_file_index_in_batch s' < i + Z.of_nat n
  ∧ exhausted = false
  ∧ 0 <= batch_total_tokens s'.
Proof.
  revert i s n. induction files as [|p rest IH]; intros i s n Hscan Hn Hprep Hcap Htot Hlast.
  - done.
  - simpl in Hscan. destruct n as [|n]; simpl in Hn.
    + injection Hn as ->. rewrite Hprep in Hscan.
      rewrite (bool_decide_eq_true_2 (_ > cap)) in Hscan by lia.
      simpl in Hscan. by injection Hscan as <- <-.
    + destruct (prepare e p) as [[fd' rt']|] eqn:Hp.
      * destruct (_ || _).
        { by injection Hscan as <- <-. }
        apply prepare_nonneg in Hp.
        eapply (IH (i + 1) _ n) in Hscan; [|done|done|done|simpl; lia|simpl; lia].
        destruct Hscan as (? & ? & ?). split_and!; [lia|done|done].
      * eapply (IH (i + 1) _ n) in Hscan; [|done|done|done|simpl; lia|simpl; lia].
        destruct Hscan as (? & ? & ?). split_and!; [lia|done|done].
Qed.

Lemma submit_new_batch_stall e c cap m k filepath fd request_tokens :
  valid_cursor (state m) →
  last_file_submitted_index (state m) < k →
  source_files (state m) !! Z.to_nat k = Some filepath →
  all_files_submitted (state m) = false →
  tokens_ok (active_batches (state m)) →
  prepare e filepath = Some (fd, request_tokens) →
  cap < request_tokens →
  let m' := (submit_new_batch e c cap m).1 in
  valid_cursor (state m')
  ∧ last_file_submitted_index (state m') < k
  ∧ source_files (state m') = source_files (state m)
  ∧ all_files_submitted (state m') = false
  ∧ tokens_ok (active_batches (state m')).
Proof.
  intros Hvalid Hk Hfile Hflag Hok Hprep Hcap m'. subst m'.
  destruct (submit_new_batch_passes e c cap m Hflag) as (m' & s & Hsub).
  rewrite Hsub. simpl.
  pose proof (perform_cursor (Submit e c cap) m m' (Some s) Hsub Hvalid) as [Hle _].
  pose proof (submit_new_batch_scan _ _ _ _ _ _ Hsub) as (ex & Hscan & Hex).
  pose proof (submit_new_batch_build _ _ _ _ _ _ Hsub) as (st & Hbuild & _ & Hcur & Hsrc).
  pose proof (build_pass _ _ _ _ _ Hbuild Hvalid) as (_ & _ & _ & Hst & Hsrc' & Hab).
  eapply (scan_files_stall _ _ _ _ _ _ _
            (Z.to_nat (k - (last_file_submitted_index (state m) + 1))))
    in Hscan as (Hlast & -> & Htot); [|..|done|done|simpl; lia|simpl; unfold valid_cursor in *; lia].
  2:{ rewrite lookup_drop, <-Hfile. f_equal. unfold valid_cursor in *. lia. }
  split_and!.
  - unfold valid_cursor in *. lia.
  - rewrite Hcur, Hst. unfold valid_cursor in *. lia.
  - by rewrite Hsrc, Hsrc'.
  - done.
  - unfold submit_new_batch in Hsub. rewrite Hflag, Hbuild in Hsub.
    destruct (files_for_batch s).
    + injection Hsub as <-. simpl. by rewrite Hab.
    + destruct (submit c _) as [[[fid bid] bst]|]; injection Hsub as <-; simpl.
      * apply tokens_ok_set; [by rewrite Hab|done].
      * by rewrite Hab.
Qed.

(** X5. A file that costs more than [QUEUE_LIMIT_TOKENS] stalls the loop:
    as long as the file at index [k] costs that much, the cursor stays
    before [k], the flag stays clear and the loop does not leave, however
    many turns it makes and whatever the service answers. *)
Theorem oversize_file_stalls world m k filepath :
  valid_cursor (state m) →
  last_file_submitted_index (state m) < k →
  source_files (state m) !! Z.to_nat k = Some filepath →
  all_files_submitted (state m) = false →
  tokens_ok (active_batches (state m)) →
  (∀ e c, (e, c) ∈ world →
     ∃ request_tokens,
       file_cost e filepath = Some request_tokens
       ∧ QUEUE_LIMIT_TOKENS < request_tokens) →
  (run world m).2 = false
  ∧ last_file_submitted_index (state (run world m).1) < k
  ∧ all_files_submitted (state (run world m).1) = false.
Proof.
  revert m. induction world as [|[e c] world IH];
    intros m Hvalid Hk Hfile Hflag Hok Hbig; [done|].
  destruct (Hbig e c ltac:(by left)) as (rt & Hcost & Hrt).
  unfold file_cost in Hcost.
  destruct (prepare e filepath) as [[fd rt']|] eqn:Hprep; [|done].
  injection Hcost as ->.
  cbn [run]. unfold run_iteration.
  pose proof (get_current_queue_size_tokens c m Hok) as (Hq & Hok1 & Hflag1).
  pose proof (get_current_queue_size_cursor c m) as [Hcur1 Hsrc1].
  destruct (get_current_queue_size c m) as [m1 q]. simpl in *.
  rewrite Hflag in Hflag1.
  assert (∃ m2,
    (if bool_decide (QUEUE_LIMIT_TOKENS - q > 0)
     then (submit_new_batch e c (QUEUE_LIMIT_TOKENS - q) m1).1 else m1) = m2
    ∧ valid_cursor (state m2)
    ∧ last_file_submitted_index (state m2) < k
    ∧ source_files (state m2) = source_files (state m)
    ∧ all_files_submitted (state m2) = false
    ∧ tokens_ok (active_batches (state m2))) as (m2 & -> & Hv2 & Hk2 & Hs2 & Hf2 & Ht2).
  { destruct (bool_decide (QUEUE_LIMIT_TOKENS - q > 0)).
    - eexists. split; [done|].
      edestruct (submit_new_batch_stall e c (QUEUE_LIMIT_TOKENS - q) m1 k filepath)
        as (? & ? & ? & ? & ?); try done.
      + unfold valid_cursor in *. lia.
      + lia.
      + by rewrite Hsrc1.
      + lia.
      + split_and!; [done|done|congruence|done|done].
    - exists m1. unfold valid_cursor in *. split_and!; [done|lia|lia|done|done|done]. }
  rewrite Hf2. simpl. apply IH; try done.
  - by rewrite Hs2.
  - intros e' c' Hin. apply (Hbig e' c'). by right.
Qed.

End loop.

(** ** What is submitted, over many calls *)

Section resubmission.
Import Itemizer Calls Catalog.

Lemma prepare_filename e filepath fd request_tokens :
  prepare e filepath = Some (fd, request_tokens) → filename fd = basename e filepath.
Proof.
  unfold prepare. intros H.
  destruct (open_readlines e filepath) as [lines|]; [|done].
  destruct (encode e (prefixed_content e lines)) as [toks|]; [|done].
  by injection H as <- _.
Qed.

(** The files a pass packs are among the files it consumed, in order. *)
Lemma pass_packed_prefix e files i evs :
  pass e files i evs →
  filename <$> omap packed_file evs
  `sublist_of` basename e <$> take (length (filter consumed evs)) files.
Proof.
  induction 1 as [i|p rest i fd rt evs Hp Hpass IH|p rest i evs Hp Hpass IH|p rest i Hp].
  - done.
  - rewrite filter_cons_True by done.
    cbn [omap list_omap packed_file length take fmap list_fmap].
    rewrite (prepare_filename _ _ _ _ Hp). by apply sublist_skip.
  - rewrite filter_cons_True by done.
    cbn [omap list_omap packed_file length take fmap list_fmap].
    by apply sublist_cons.
  - rewrite filter_cons_False by (simpl; auto). apply sublist_nil_l.
Qed.

Lemma perform_source_files a m :
  source_files (state (perform a m).1) = source_files (state m).
Proof.
  destruct a as [c|e c cap]; simpl.
  - by destruct (get_current_queue_size_cursor c m).
  - destruct (submit_new_batch e c cap m) as [m' [s|]] eqn:Hsub; simpl.
    + apply submit_new_batch_build in Hsub as (st & Hbuild & _ & _ & Hsrc).
      unfold build in Hbuild. destruct (scan_files _ _ _ _ _).
      injection Hbuild as <- _. by rewrite Hsrc.
    + by apply submit_new_batch_returns in Hsub as ->.
Qed.

(** What a sequence of calls packs comes from the files after the cursor,
    in order and each at most once. *)
Lemma perform_all_packed bn acts m :
  valid_cursor (state m) →
  (∀ e c cap, Submit e c cap ∈ acts → basename e = bn) →
  filename <$> flat_map files_for_batch (perform_all acts m).2
  `sublist_of`
  bn <$> drop (Z.to_nat (last_file_submitted_index (state m) + 1))
              (source_files (state m)).
Proof.
  revert m. induction acts as [|a acts IH]; intros m Hvalid Hbn.
  - apply sublist_nil_l.
  - assert (∀ e c cap, Submit e c cap ∈ acts → basename e = bn) as Hbn'.
    { intros e c cap Hin. apply (Hbn e c cap). by right. }
    cbn [perform_all].
    destruct (perform a m) as [m1 o] eqn:Hperf.
    pose proof (perform_source_files a m) as Hsrc. rewrite Hperf in Hsrc.
    pose proof (perform_cursor a m m1 o Hperf Hvalid) as [Hle _].
    assert (valid_cursor (state m1)) as Hvalid1 by (unfold valid_cursor in *; lia).
    specialize (IH m1 Hvalid1 Hbn').
    destruct (perform_all acts m1) as [m2 passes]. simpl in IH, Hsrc. cbn [snd].
    destruct a as [c|e c cap]; simpl in Hperf.
    + injection Hperf as <- <-.
      destruct (get_current_queue_size_cursor c m) as [Hcur _].
      by rewrite Hcur, Hsrc in IH.
    + destruct o as [s|].
      * pose proof (submit_new_batch_build _ _ _ _ _ _ Hperf)
          as (st & Hbuild & _ & Hcur & _).
        apply build_pass in Hbuild as (Hpass & Hfiles & Hlast & Hst & _); [|done].
        apply pass_packed_prefix in Hpass.
        rewrite (Hbn e c cap) in Hpass by (by left).
        cbn [flat_map]. rewrite fmap_app, <-Hfiles in *.
        rewrite Hsrc, Hcur, Hst, Hlast in IH.
        set (a := Z.to_nat (last_file_submitted_index (state m) + 1)) in *.
        set (n := length (filter consumed (events s))) in *.
        replace (Z.to_nat (last_file_submitted_index (state m) + Z.of_nat n + 1))
          with (a + n)%nat in IH
          by (subst a; unfold valid_cursor in *; lia).
        rewrite <-drop_drop in IH.
        rewrite <-(take_drop n (drop a (source_files (state m)))).
        rewrite fmap_app. by apply sublist_app.
      * apply submit_new_batch_returns in Hperf as ->. done.
Qed.

(** X17. No file is submitted twice: when the names of the catalog are
    distinct, the [custom_id]s of all the requests that a sequence of
    refreshes and builder calls puts into batches are distinct, within one
    batch and across batches. *)
Theorem no_file_submitted_twice bn acts m :
  valid_cursor (state m) →
  NoDup (bn <$> source_files (state m)) →
  (∀ e c cap, Submit e c cap ∈ acts → basename e = bn) →
  NoDup (filename <$> flat_map files_for_batch (perform_all acts m).2).
Proof.
  intros Hvalid Hnd Hbn.
  eapply sublist_NoDup; [exact Hnd|].
  etrans; [by apply perform_all_packed|].
  rewrite fmap_drop. apply sublist_drop.
Qed.

(** X19. The cursor stays inside the catalog: from a cursor between -1 and
    the last index, any sequence of refreshes and builder calls leaves the
    catalog as it is and the cursor between -1 and the last index. *)
Theorem cursor_stays_in_catalog acts m :
  valid_cursor (state m) →
  last_file_submitted_index (state m) < Z.of_nat (length (source_files (state m))) →
  valid_cursor (state (perform_all acts m).1)
  ∧ last_file_submitted_index (state (perform_all acts m).1)
    < Z.of_nat (length (source_files (state m)))
  ∧ source_files (state (perform_all acts m).1) = source_files (state m).
Proof.
  revert m. induction acts as [|a acts IH]; intros m Hvalid Hrange; [done|].
  cbn [perform_all].
  destruct (perform a m) as [m1 o] eqn:Hperf.
  pose proof (perform_source_files a m) as Hsrc. rewrite Hperf in Hsrc. simpl in Hsrc.
  pose proof (perform_cursor a m m1 o Hperf Hvalid) as [Hle _].
  assert (last_file_submitted_index (state m1)
          < Z.of_nat (length (source_files (state m)))) as Hrange1.
  { destruct a as [c|e c cap]; simpl in Hperf.
    - injection Hperf as <- <-.
      destruct (get_current_queue_size_cursor c m) as [-> _]. done.
    - destruct o as [s|].
      + apply submit_new_batch_build in Hperf as (st & Hbuild & _ & Hcur & _).
        apply build_pass in Hbuild as (Hpass & _ & Hlast & Hst & _); [|done].
        apply pass_length in Hpass. rewrite length_drop in Hpass.
        pose proof (length_filter consumed (events s)) as Hf.
        rewrite Hcur, Hst, Hlast. unfold valid_cursor in *. lia.
      + by apply submit_new_batch_returns in Hperf as ->. }
  destruct (IH m1) as (Hv & Hr & Hs).
  - unfold valid_cursor in *. lia.
  - by rewrite Hsrc.
  - destruct (perform_all acts m1) as [m2 passes]. simpl in *.
    rewrite Hsrc in Hr, Hs. done.
Qed.

End resubmission.

(** ** Merging again *)

Section remerge.
Import Retriever Pipeline.
Context {payload : Type} (parse_line : string → line_result payload).

(** X18. Losing the file of the processed ids is harmless to the merged
    results: when a first run started with no batch marked, and a second
    run starts again with no batch marked but with the merged file of the
    first, on the same state file and the same answers of the service, the
    second run leaves every entry of the merged results as the first run
    left it. *)
Theorem remerge_idempotent c timestamp timestamp' submission_state old k :
  let f1 := (run parse_line c timestamp submission_state
               {| processed_batch_ids := ∅; MERGED_OUTPUT_FILE := old |}).1 in
  stored (run parse_line c timestamp' submission_state
            {| processed_batch_ids := ∅;
               MERGED_OUTPUT_FILE := MERGED_OUTPUT_FILE f1 |}).1 k
  = stored f1 k.
Proof.
  intros f1. subst f1.
  destruct (run_spec parse_line c timestamp' submission_state
              {| processed_batch_ids := ∅;
                 MERGED_OUTPUT_FILE := MERGED_OUTPUT_FILE
                   (run parse_line c timestamp submission_state
                      {| processed_batch_ids := ∅; MERGED_OUTPUT_FILE := old |}).1 |})
    as (_ & _ & Hsecond & _).
  destruct (run_spec parse_line c timestamp submission_state
              {| processed_batch_ids := ∅; MERGED_OUTPUT_FILE := old |})
    as (_ & _ & Hfirst & _).
  rewrite Hsecond. simpl.
  change (stored {| processed_batch_ids := ∅;
                    MERGED_OUTPUT_FILE := MERGED_OUTPUT_FILE
                      (run parse_line c timestamp submission_state
                         {| processed_batch_ids := ∅; MERGED_OUTPUT_FILE := old |}).1 |} k)
    with (stored (run parse_line c timestamp submission_state
                    {| processed_batch_ids := ∅; MERGED_OUTPUT_FILE := old |}).1 k).
  rewrite Hfirst. simpl.
  by destruct (all_new_results _ _ _ !! k).
Qed.

End remerge.

(** ** The further properties on the small catalog and the small service *)

Section scenarios.
Import Itemizer Calls Catalog Retriever Pipeline Lines Examples.

(** Of the three sources only [b.txt] has a result. *)
Lemma files_to_process_selects_witness :
  files_to_process Scenarios.tail_name (λ l, l) Scenarios.result_files
    Scenarios.all_files
  = ["docs/a.txt"; "docs/c.txt"]
  ∧ ("docs/b.txt" ∉ files_to_process Scenarios.tail_name (λ l, l)
                     Scenarios.result_files Scenarios.all_files).
Proof.
  split; [vm_compute; reflexivity|].
  intros Hin.
  apply (files_to_process_selects Scenarios.tail_name (λ l, l)
           Scenarios.result_files Scenarios.all_files "docs/b.txt" "b" eq_refl) in Hin
    as [_ Hnone].
  apply (Hnone "segs/b_original.txt"); [by left|reflexivity].
Defined.

Lemma pass_visits_consecutive_witness :
  ∃ s, (submit_new_batch env down 50 manager).2 = Some s
       ∧ event_index <$> events s = [0; 1; 2].
Proof.
  eexists. split; [vm_compute; reflexivity|].
  edestruct (pass_visits_consecutive env down 50 manager
               (submit_new_batch env down 50 manager).1) as [Hidx _].
  - exact valid_cursor_manager.
  - vm_compute. reflexivity.
  - exact Hidx.
Defined.

Lemma batch_size_capped_witness :
  ∃ s, (submit_new_batch env down 100 manager).2 = Some s
       ∧ Z.of_nat (length (files_for_batch s)) <= MAX_FILES_PER_BATCH.
Proof.
  eexists. split; [vm_compute; reflexivity|].
  eapply (batch_size_capped env down 100 manager
            (submit_new_batch env down 100 manager).1).
  vm_compute. reflexivity.
Defined.

(** With room for one file the pass stops at the third; with room for all
    it reaches the end. *)
Lemma pass_ends_witness :
  all_files_submitted (state (submit_new_batch env down 50 manager).1) = false
  ∧ all_files_submitted (state (submit_new_batch env down 100 manager).1) = true.
Proof.
  edestruct (pass_ends env down 50 manager
               (submit_new_batch env down 50 manager).1)
    as [(Hflag & _)|(Hflag & _)].
  - exact valid_cursor_manager.
  - simpl. lia.
  - vm_compute. reflexivity.
  - discriminate Hflag.
  - split; [exact Hflag|reflexivity].
Defined.

Lemma oversized_cost filepath :
  is_Some (open_readlines Scenarios.oversized filepath) →
  ∃ request_tokens,
    file_cost Scenarios.oversized filepath = Some request_tokens
    ∧ QUEUE_LIMIT_TOKENS < request_tokens.
Proof.
  intros [lines Hlines]. unfold file_cost, prepare. rewrite Hlines.
  cbn [encode Scenarios.oversized env system_prompt_tokens].
  eexists. split; [reflexivity|].
  rewrite Z2Nat.id by lia. unfold QUEUE_LIMIT_TOKENS. lia.
Defined.

(** The first file is behind a system prompt of a billion tokens: two
    turns of the loop, one with a service that is down and one with a
    service that would accept, leave the cursor where it was. *)
Lemma oversize_file_stalls_witness :
  (Catalog.run [(Scenarios.oversized, down); (Scenarios.oversized, accepting)] manager).2
  = false
  ∧ last_file_submitted_index
      (state (Catalog.run [(Scenarios.oversized, down); (Scenarios.oversized, accepting)]
                manager).1) < 0.
Proof.
  edestruct (oversize_file_stalls
               [(Scenarios.oversized, down); (Scenarios.oversized, accepting)]
               manager 0 "docs/a.txt") as (Hstop & Hcur & _).
  - exact valid_cursor_manager.
  - simpl. lia.
  - reflexivity.
  - reflexivity.
  - constructor.
  - intros e c Hin. apply elem_of_cons in Hin as [Heq|Hin].
    + injection Heq as -> ->. apply oversized_cost. by eexists.
    + apply list_elem_of_singleton in Hin. injection Hin as -> ->.
      apply oversized_cost. by eexists.
  - split; [exact Hstop|exact Hcur].
Defined.

(** The service accepts the batch of the first and the third file. *)
Lemma submission_recorded_witness :
  odict.get (active_batches (state (submit_new_batch env accepting 100 manager).1))
    "batch_9"
  = Some {| rstatus := "validating";
            submitted_at := 1700000000;
            input_file_id := "file_9";
            total_tokens := 88;
            file_count := 2 |}
  ∧ "batch_9" ∈ batch_ids_to_check
                  (Some (STATE_FILE (submit_new_batch env accepting 100 manager).1)).
Proof.
  edestruct (submission_recorded env accepting 100 manager
               (submit_new_batch env accepting 100 manager).1)
    as (Hrec & _ & _ & Hseen).
  - vm_compute. reflexivity.
  - discriminate.
  - reflexivity.
  - split; [exact Hrec|exact Hseen].
Defined.

(** Two readable files, accepted at the first turn and completed at the
    second. *)
Lemma run_terminates_witness :
  ∃ m', Catalog.run [(env, accepting); (env, finished)] Scenarios.readable = (m', true)
        ∧ last_file_submitted_index (state m') = 1
        ∧ active_batches (state m') = [].
Proof.
  edestruct (run_terminates env accepting env finished Scenarios.readable
               "file_9" "batch_9" "validating" "completed" (Some "out_batch_9"))
    as (m' & Hrun & Hcur & _ & Hab).
  - reflexivity.
  - reflexivity.
  - reflexivity.
  - intros p Hp. apply elem_of_cons in Hp as [->|Hp]; [by eexists|].
    apply list_elem_of_singleton in Hp as ->. by eexists.
  - vm_compute. discriminate.
  - vm_compute. discriminate.
  - reflexivity.
  - reflexivity.
  - apply (bool_decide_unpack _). vm_compute. exact I.
  - exists m'. split_and!; [exact Hrun|exact Hcur|exact Hab].
Defined.

(** A batch that is being cancelled stays tracked and is not counted. *)
Lemma refresh_other_status_witness :
  (get_current_queue_size Scenarios.cancelling tracking).2 = 0
  ∧ odict.get (active_batches
                 (state (get_current_queue_size Scenarios.cancelling tracking).1))
      "batch_2"
    = Some (set_status (record 20) "cancelling").
Proof.
  edestruct (refresh_other_status Scenarios.cancelling tracking "batch_2" (record 20))
    as [_ Hrec].
  - exact ok_tracking.
  - reflexivity.
  - reflexivity.
  - apply (bool_decide_unpack _). vm_compute. exact I.
  - apply (bool_decide_unpack _). vm_compute. exact I.
  - split; [vm_compute; reflexivity|exact Hrec].
Defined.

Lemma refresh_preserves_records_witness :
  odict.keys (active_batches (state (get_current_queue_size polling tracking).1))
    `sublist_of` ["batch_1"; "batch_2"; "batch_3"]
  ∧ odict.ok (active_batches (state (get_current_queue_size polling tracking).1)).
Proof.
  destruct (refresh_preserves_records polling tracking ok_tracking)
    as (Hsub & Hok & _).
  split; [exact Hsub|exact Hok].
Defined.

(** The output of the first batch, once it can be downloaded. *)
Lemma batch_results_last_line_wins_witness :
  (process_batch_result parse_line recovered
     {| id := "batch_1"; status := "completed"; output_file_id := Some "out_1" |}).1
    !! "c.txt"
  = Some "seg_c".
Proof.
  rewrite (batch_results_last_line_wins parse_line recovered
             {| id := "batch_1"; status := "completed";
                output_file_id := Some "out_1" |}
             "out_1" ["a.txt seg_a"; "c.txt seg_c"] "c.txt").
  - vm_compute. reflexivity.
  - reflexivity.
  - discriminate.
  - reflexivity.
  - intros line Hin. apply elem_of_cons in Hin as [->|Hin]; [reflexivity|].
    apply list_elem_of_singleton in Hin as ->. reflexivity.
Defined.

(** The second line of the output is [null]: the first and the third are
    lost with it, and the batch is marked. *)
Lemma crashed_line_discards_batch_witness :
  (process_batch_result Scenarios.parse_line Scenarios.garbled
     {| id := "batch_1"; status := "completed"; output_file_id := Some "out_1" |}).1
  = ∅
  ∧ "batch_1" ∈ processed_batch_ids
                  (run Scenarios.parse_line Scenarios.garbled
                     "2024-01-01 00:00:00 UTC" (Some (state tracking)) nothing).1.
Proof.
  edestruct (crashed_line_discards_batch Scenarios.parse_line Scenarios.garbled
               "2024-01-01 00:00:00 UTC" (Some (state tracking)) nothing
               {| id := "batch_1"; status := "completed";
                  output_file_id := Some "out_1" |}
               "out_1" ["a.txt seg_a"; "null"; "c.txt seg_c"] "null")
    as [Hempty Hmarked].
  - vm_compute. left.
  - reflexivity.
  - reflexivity.
  - right. left.
  - reflexivity.
  - split; [exact Hempty|exact Hmarked].
Defined.

(** Every batch is completed without an output file. *)
Lemma no_output_file_marked_witness :
  "batch_2" ∈ processed_batch_ids
                (run parse_line Scenarios.no_output "2024-01-01 00:00:00 UTC"
                   (Some (state tracking)) nothing).1
  ∧ ∀ file_id,
      Download "batch_2" file_id
      ∉ (run parse_line Scenarios.no_output "2024-01-01 00:00:00 UTC"
           (Some (state tracking)) nothing).2.
Proof.
  edestruct (no_output_file_marked parse_line Scenarios.no_output
               "2024-01-01 00:00:00 UTC" (Some (state tracking)) nothing
               {| id := "batch_2"; status := "completed"; output_file_id := None |})
    as (_ & Hmarked & Hnone).
  - vm_compute. right. left.
  - reflexivity.
  - split; [exact Hmarked|exact Hnone].
Defined.

(** A call whose submission fails, then a call that is accepted: the first
    file is in the first batch, the third in the second. *)
Lemma no_file_submitted_twice_witness :
  NoDup (filename <$> flat_map files_for_batch
           (perform_all [Submit env down 50; Submit env accepting 100] manager).2).
Proof.
  apply (no_file_submitted_twice (basename env)).
  - exact valid_cursor_manager.
  - apply (bool_decide_unpack _). vm_compute. exact I.
  - intros e c cap Hin. apply elem_of_cons in Hin as [Heq|Hin].
    + by injection Heq as -> _ _.
    + apply list_elem_of_singleton in Hin. by injection Hin as -> _ _.
Defined.

Lemma cursor_stays_in_catalog_witness :
  last_file_submitted_index
    (state (perform_all [Submit env down 50; Submit env accepting 100] manager).1)
  < 3.
Proof.
  edestruct (cursor_stays_in_catalog
               [Submit env down 50; Submit env accepting 100] manager)
    as (_ & Hrange & _).
  - exact valid_cursor_manager.
  - simpl. lia.
  - exact Hrange.
Defined.

End scenarios.
